(** * odbc2parquet: the parquet buffer, the decimal and time encoders and the
      insert path, embedded in Rocq.

    Conventions of the model:
    - a byte is a [Z] in [0, 255]; [CStr::to_bytes] is [to_bytes];
    - machine integers are kept as their bit pattern: a [u32] modulo [2^32],
      an [i128] modulo [2^128]; arithmetic wraps (release build);
    - a Rust panic is [None] of an [option] result. *)

From Stdlib Require Import Strings.String Strings.Ascii.
From Stdlib Require Import ZArith List Lia Bool.
Import ListNotations.
Open Scope Z_scope.

(* ------------------------------------------------------------------ *)
(** ** Bytes and slices *)

(** [CStr::to_bytes]: the bytes of the string, without the terminating nul. *)
Definition to_bytes (s : string) : list Z :=
  map (fun a => Z.of_nat (nat_of_ascii a)) (list_ascii_of_string s).

(** [&bytes[a..b]]: panics when [b] is beyond the end (or [a > b]). *)
Definition slice (l : list Z) (a b : nat) : option (list Z) :=
  if (a <=? b)%nat && (b <=? length l)%nat
  then Some (firstn (b - a) (skipn a l)) else None.

(** [Vec::resize(n, x)]: truncate, or extend with copies of [x]. *)
Definition vec_resize {A} (l : list A) (n : nat) (x : A) : list A :=
  firstn n l ++ repeat x (n - length l).

(** [slice::rotate_right(k)], for [k <= len]. *)
Definition rotate_right {A} (l : list A) (k : nat) : list A :=
  skipn (length l - k) l ++ firstn (length l - k) l.

(** The [k] low-order bytes of [x], most significant first. For a negative
    [x] this is its two's complement, since [mod] and [/] round down. *)
Fixpoint be_bytes (k : nat) (x : Z) : list Z :=
  match k with
  | O => []
  | S k' => be_bytes k' (x / 256) ++ [x mod 256]
  end.

(** [x] is representable in [k] bytes of two's complement. *)
Definition fits_signed (k : nat) (x : Z) : Prop :=
  - 256 ^ Z.of_nat k <= 2 * x < 256 ^ Z.of_nat k.

(** The big-endian value of a byte list, and its two's-complement reading. *)
Definition be_value (l : list Z) : Z := fold_left (fun acc b => acc * 256 + b) l 0.

Definition signed_be_value (l : list Z) : Z :=
  let v := be_value l in
  let m := 256 ^ Z.of_nat (List.length l) in
  if 2 * v <? m then v else v - m.

(* ------------------------------------------------------------------ *)
(** ** atoi: [FromRadix10] and [FromRadix10Signed]

    Both crates' parsers share one loop: digits are consumed while they
    last, [number = number * 10 +/- digit]; [norm] is the wrap-around of
    the integer type ([fun x => x] for [BigInt]). *)

Definition ascii_to_digit (c : Z) : option Z :=
  if (48 <=? c) && (c <=? 57) then Some (c - 48) else None.

Fixpoint radix_10_loop (norm : Z -> Z) (neg : bool) (number : Z) (index : nat)
    (text : list Z) : Z * nat :=
  match text with
  | [] => (number, index)
  | c :: rest =>
      match ascii_to_digit c with
      | Some digit =>
          radix_10_loop norm neg
            (norm (if neg then number * 10 - digit else number * 10 + digit))
            (S index) rest
      | None => (number, index)
      end
  end.

(** [FromRadix10::from_radix_10]: no sign. *)
Definition from_radix_10 (norm : Z -> Z) (text : list Z) : Z * nat :=
  radix_10_loop norm false 0 0 text.

(** [FromRadix10Signed::from_radix_10_signed]: an optional leading [+] (43)
    or [-] (45). *)
Definition from_radix_10_signed (norm : Z -> Z) (text : list Z) : Z * nat :=
  match text with
  | c :: rest =>
      if c =? 43 then radix_10_loop norm false 0 1 rest
      else if c =? 45 then radix_10_loop norm true 0 1 rest
      else radix_10_loop norm false 0 0 text
  | [] => (0, 0%nat)
  end.

Definition wrap_u32 (x : Z) : Z := x mod 2 ^ 32.
Definition wrap_i128 (x : Z) : Z := x mod 2 ^ 128.

(* ------------------------------------------------------------------ *)
(** ** Decimal encoders ([ParquetBuffer::twos_complement_*]) *)

(** [digits.extend(decimal.to_bytes().iter().filter(|&&c| c != b'.'))] *)
Definition strip_points (bytes : list Z) : list Z :=
  filter (fun c => negb (c =? 46)) bytes.

(** The value the arbitrary-precision path parses from a decimal text. *)
Definition decimal_value (decimal : string) : Z :=
  fst (from_radix_10_signed (fun x => x) (strip_points (to_bytes decimal))).

(** [i128::to_be_bytes]: the 16 bytes of the bit pattern. *)
Definition i128_to_be_bytes (num : Z) : list Z := be_bytes 16 num.

(** [ParquetBuffer::twos_complement_i128]; [16 - length] underflows (panic)
    for [length > 16]. *)
Definition twos_complement_i128 (decimal : string) (length : nat)
    : option (list Z) :=
  let digits := strip_points (to_bytes decimal) in
  let num := fst (from_radix_10_signed wrap_i128 digits) in
  if (length <=? 16)%nat
  then Some (skipn (16 - length) (i128_to_be_bytes num))
  else None.

(** Number of bytes of [BigInt::to_signed_bytes_be]: the shortest two's
    complement big-endian representation (one byte for zero). *)
Definition signed_bytes_len (num : Z) : nat :=
  let m := if 0 <=? num then num else - num - 1 in
  Z.to_nat ((Z.log2 m + 1) / 8 + 1).

(** [BigInt::to_signed_bytes_be]. *)
Definition to_signed_bytes_be (num : Z) : list Z :=
  be_bytes (signed_bytes_len num) num.

(** [ParquetBuffer::twos_complement_big_int]; [length - out.len()]
    underflows (panic) when the value needs more than [length] bytes. *)
Definition twos_complement_big_int (decimal : string) (length : nat)
    : option (list Z) :=
  let digits := strip_points (to_bytes decimal) in
  let num := fst (from_radix_10_signed (fun x => x) digits) in
  let out := to_signed_bytes_be num in
  if (List.length out <=? length)%nat then
    let num_leading_bytes := (length - List.length out)%nat in
    let fill := if num <? 0 then 255 else 0 in
    Some (rotate_right (vec_resize out length fill) num_leading_bytes)
  else None.

(** The encoder [ParquetBuffer::write_decimal] applies to each value of a
    column with the given [precision] and [type_length] (both [i32] in the
    schema, converted with [try_into().unwrap()]). *)
Definition decimal_encoder (precision type_length : Z) (decimal : string)
    : option (list Z) :=
  if (precision <? 0) || (type_length <? 0) then None
  else if precision <? 39
  then twos_complement_i128 decimal (Z.to_nat type_length)
  else twos_complement_big_int decimal (Z.to_nat type_length).

(* ------------------------------------------------------------------ *)
(** ** Time of day ([parse_time] and [IntoPhysical] for [&CStr]) *)

(** chrono's [NaiveTime]: seconds since midnight and the nanosecond
    fraction (at least [10^9] only for a leap second). *)
Record NaiveTime := { secs : Z; frac : Z }.

(** [NaiveTime::from_hms_nano]: panics ("invalid time") out of range. *)
Definition from_hms_nano (hour min sec nano : Z) : option NaiveTime :=
  if (hour <? 24) && (min <? 60) && (sec <? 60) && (nano <? 2000000000)
  then Some {| secs := hour * 3600 + min * 60 + sec; frac := nano |}
  else None.

(** [10_u32.pow(e)], wrapping. *)
Definition u32_pow10 (e : nat) : Z := wrap_u32 (10 ^ Z.of_nat e).

(** The [let nano = ...] block of [parse_time]: the fraction from
    [bytes[9..]], padded or cut to nanoseconds. *)
Definition fraction_nanos (bytes : list Z) : option Z :=
  if (9 <? List.length bytes)%nat then
    let (fraction, precision) := from_radix_10 wrap_u32 (skipn 9 bytes) in
    if (precision <=? 8)%nat
    then Some (wrap_u32 (fraction * u32_pow10 (9 - precision)))
    else if (precision =? 9)%nat then Some fraction
    else
      let d := u32_pow10 (precision - 9) in
      (* division by zero panics *)
      if d =? 0 then None else Some (fraction / d)
  else Some 0.

(** [parse_time] on [input.to_bytes()]: hour, minute and second from
    [bytes[0..2]], [bytes[3..5]], [bytes[6..8]]. *)
Definition parse_time_bytes (bytes : list Z) : option NaiveTime :=
  match slice bytes 0 2, slice bytes 3 5, slice bytes 6 8 with
  | Some h, Some m, Some s =>
      let hour := fst (from_radix_10 wrap_u32 h) in
      let min := fst (from_radix_10 wrap_u32 m) in
      let sec := fst (from_radix_10 wrap_u32 s) in
      match fraction_nanos bytes with
      | Some nano => from_hms_nano hour min sec nano
      | None => None
      end
  | _, _, _ => None
  end.

Definition parse_time (input : string) : option NaiveTime :=
  parse_time_bytes (to_bytes input).

(** The number [parse_time] reads from the two-byte field at [offset]
    (leading digits only), for an input of at least [offset + 2] bytes. *)
Definition time_field (bytes : list Z) (offset : nat) : Z :=
  fst (from_radix_10 wrap_u32 (firstn 2 (skipn offset bytes))).

(** A decimal digit value. *)
Definition is_digit (d : Z) : Prop := 0 <= d <= 9.

(** Well-formed time texts: [HH:MM:SS], then optionally [.] and fraction
    digits. *)
Definition two_digits (v : Z) : list Z := [48 + v / 10; 48 + v mod 10].

Definition digits_value (ds : list Z) : Z :=
  fold_left (fun acc d => acc * 10 + d) ds 0.

Definition time_text (h m s : Z) (ds : list Z) : list Z :=
  two_digits h ++ [58] ++ two_digits m ++ [58] ++ two_digits s ++
  match ds with [] => [] | _ => 46 :: map (fun d => 48 + d) ds end.

(** [time.signed_duration_since(midnight)] in nanoseconds. *)
Definition nanos_since_midnight (t : NaiveTime) : Z :=
  secs t * 1000000000 + frac t.

(** [IntoPhysical<i32> for &CStr]: milliseconds since midnight
    ([num_milliseconds], then [try_into::<i32>().unwrap()]). *)
Definition time_to_millis (input : string) : option Z :=
  match parse_time input with
  | Some t =>
      let ms := nanos_since_midnight t / 1000000 in
      if ms <=? 2 ^ 31 - 1 then Some ms else None
  | None => None
  end.

(** [IntoPhysical<i64> for &CStr]: microseconds since midnight
    ([num_microseconds().expect(..)]). *)
Definition time_to_micros (input : string) : option Z :=
  match parse_time input with
  | Some t =>
      let us := nanos_since_midnight t / 1000 in
      if us <=? 2 ^ 63 - 1 then Some us else None
  | None => None
  end.

(* ------------------------------------------------------------------ *)
(** ** [ParquetBuffer] *)

(** [f32] and [f64] slots hold the IEEE bit pattern ([0.] is [0]);
    a [ByteArray] slot is [Some] of its bytes once set, and [None] for
    [ByteArray::new()], which holds no data (parquet panics when it is
    read). *)
Record ParquetBuffer := {
  values_i32 : list Z;
  values_i64 : list Z;
  values_f32 : list Z;
  values_f64 : list Z;
  values_bytes_array : list (option (list Z));
  values_bool : list bool;
  def_levels : list Z
}.

(** [ParquetBuffer::set_num_rows_fetched] *)
Definition set_num_rows_fetched (pb : ParquetBuffer) (num_rows : nat)
    : ParquetBuffer :=
  {| def_levels := vec_resize (def_levels pb) num_rows 0;
     values_i32 := vec_resize (values_i32 pb) num_rows 0;
     values_i64 := vec_resize (values_i64 pb) num_rows 0;
     values_f32 := vec_resize (values_f32 pb) num_rows 0;
     values_f64 := vec_resize (values_f64 pb) num_rows 0;
     values_bytes_array := vec_resize (values_bytes_array pb) num_rows None;
     values_bool := vec_resize (values_bool pb) num_rows false |}.

(** The trait [BufferedDataType]: [mut_buf] gives the value slice of the
    element type and the definition levels; [put_buf] stores them back
    (the writes through the [&mut] slices). The two laws hold for every
    instance below. *)
Class BufferedDataType (T : Type) := {
  mut_buf : ParquetBuffer -> list T * list Z;
  put_buf : ParquetBuffer -> list T -> list Z -> ParquetBuffer;
  mut_buf_def_levels : forall pb, snd (mut_buf pb) = def_levels pb;
  mut_buf_resized :
    forall pb n, List.length (fst (mut_buf (set_num_rows_fetched pb n))) = n
}.

Ltac resized_length :=
  cbn; unfold vec_resize; rewrite ?length_map, length_app, length_firstn,
    repeat_length; lia.

#[global] Instance buffered_i32 : BufferedDataType Z := {
  mut_buf pb := (values_i32 pb, def_levels pb);
  put_buf pb v d := {| values_i32 := v; values_i64 := values_i64 pb;
    values_f32 := values_f32 pb; values_f64 := values_f64 pb;
    values_bytes_array := values_bytes_array pb; values_bool := values_bool pb;
    def_levels := d |};
  mut_buf_def_levels pb := eq_refl;
  mut_buf_resized pb n := ltac:(resized_length)
}.

(** [i64], [f32] and [f64] share the carrier [Z] with [i32]; a wrapper
    type tells the instances apart. *)
Record I64 := { i64 : Z }.
Record F32 := { f32_bits : Z }.
Record F64 := { f64_bits : Z }.

#[global] Instance buffered_i64 : BufferedDataType I64 := {
  mut_buf pb := (map Build_I64 (values_i64 pb), def_levels pb);
  put_buf pb v d := {| values_i32 := values_i32 pb; values_i64 := map i64 v;
    values_f32 := values_f32 pb; values_f64 := values_f64 pb;
    values_bytes_array := values_bytes_array pb; values_bool := values_bool pb;
    def_levels := d |};
  mut_buf_def_levels pb := eq_refl;
  mut_buf_resized pb n := ltac:(resized_length)
}.

#[global] Instance buffered_f32 : BufferedDataType F32 := {
  mut_buf pb := (map Build_F32 (values_f32 pb), def_levels pb);
  put_buf pb v d := {| values_i32 := values_i32 pb; values_i64 := values_i64 pb;
    values_f32 := map f32_bits v; values_f64 := values_f64 pb;
    values_bytes_array := values_bytes_array pb; values_bool := values_bool pb;
    def_levels := d |};
  mut_buf_def_levels pb := eq_refl;
  mut_buf_resized pb n := ltac:(resized_length)
}.

#[global] Instance buffered_f64 : BufferedDataType F64 := {
  mut_buf pb := (map Build_F64 (values_f64 pb), def_levels pb);
  put_buf pb v d := {| values_i32 := values_i32 pb; values_i64 := values_i64 pb;
    values_f32 := values_f32 pb; values_f64 := map f64_bits v;
    values_bytes_array := values_bytes_array pb; values_bool := values_bool pb;
    def_levels := d |};
  mut_buf_def_levels pb := eq_refl;
  mut_buf_resized pb n := ltac:(resized_length)
}.

#[global] Instance buffered_bool : BufferedDataType bool := {
  mut_buf pb := (values_bool pb, def_levels pb);
  put_buf pb v d := {| values_i32 := values_i32 pb; values_i64 := values_i64 pb;
    values_f32 := values_f32 pb; values_f64 := values_f64 pb;
    values_bytes_array := values_bytes_array pb; values_bool := v;
    def_levels := d |};
  mut_buf_def_levels pb := eq_refl;
  mut_buf_resized pb n := ltac:(resized_length)
}.

#[global] Instance buffered_byte_array : BufferedDataType (option (list Z)) := {
  mut_buf pb := (values_bytes_array pb, def_levels pb);
  put_buf pb v d := {| values_i32 := values_i32 pb; values_i64 := values_i64 pb;
    values_f32 := values_f32 pb; values_f64 := values_f64 pb;
    values_bytes_array := v; values_bool := values_bool pb;
    def_levels := d |};
  mut_buf_def_levels pb := eq_refl;
  mut_buf_resized pb n := ltac:(resized_length)
}.

(** [values[i] = x]: panics out of bounds. *)
Fixpoint set_nth {A} (l : list A) (i : nat) (x : A) : option (list A) :=
  match l, i with
  | [], _ => None
  | _ :: t, O => Some (x :: t)
  | y :: t, S i' => option_map (cons y) (set_nth t i' x)
  end.

(** The loop of [write_optional_any] over [source.zip(def_levels)]: it
    stops at the shorter of the two; [values_index] counts the values
    written so far. Returns the rewritten levels and values. *)
Fixpoint fill_column {Src T} (into_physical : Src -> T) (source : list (option Src))
    (defs : list Z) (values : list T) (values_index : nat)
    : option (list Z * list T) :=
  match source, defs with
  | item :: source', _ :: defs' =>
      match item with
      | Some value =>
          match set_nth values values_index (into_physical value) with
          | Some values' =>
              match fill_column into_physical source' defs' values'
                      (S values_index) with
              | Some (defs'', values'') => Some (1 :: defs'', values'')
              | None => None
              end
          | None => None
          end
      | None =>
          match fill_column into_physical source' defs' values values_index with
          | Some (defs'', values'') => Some (0 :: defs'', values'')
          | None => None
          end
      end
  | _, _ => Some (defs, values)
  end.

(** [ParquetBuffer::write_optional_any]: the buffer after the loop and the
    arguments [(values, def_levels)] of [cw.write_batch]. *)
Definition write_optional_any {Src T} `{BufferedDataType T} (pb : ParquetBuffer)
    (source : list (option Src)) (into_physical : Src -> T)
    : option (ParquetBuffer * (list T * list Z)) :=
  let (values, defs) := mut_buf pb in
  match fill_column into_physical source defs values 0 with
  | Some (defs', values') => Some (put_buf pb values' defs', (values', defs'))
  | None => None
  end.

(** The validity marker of a source item, and the present values in
    order. *)
Definition marker {A} (item : option A) : Z :=
  match item with Some _ => 1 | None => 0 end.

Fixpoint present_values {A} (items : list (option A)) : list A :=
  match items with
  | [] => []
  | Some v :: rest => v :: present_values rest
  | None :: rest => present_values rest
  end.

(* ------------------------------------------------------------------ *)
(** ** [insert]: parquet file into a table *)

(** parquet's [ColumnReader], with the values (and nulls) it yields. *)
Inductive ColumnReader :=
| BoolColumnReader (values : list (option bool))
| Int32ColumnReader (values : list (option Z))
| Int64ColumnReader (values : list (option Z))
| Int96ColumnReader (values : list (option Z))
| FloatColumnReader (values : list (option Z))
| DoubleColumnReader (values : list (option Z))
| ByteArrayColumnReader (values : list (option (list Z)))
| FixedLenByteArrayColumnReader (values : list (option (list Z))).

(** A row group: [metadata().num_rows()] ([i64]) and, for each
    [column_index] in [0..num_columns], what [get_column_reader] returns:
    [inl] of the reader, or [inr] of the error message. *)
Record RowGroup := {
  rg_num_rows : Z;
  rg_columns : list (ColumnReader + string)
}.

(** odbc-api's column buffers for the two [BufferKind]s the resolver
    produces, and the [ColumnarRowSet] bound to the statement. *)
Inductive AnyColumnBuffer :=
| TextColumn (rows : list (option (list Z)))
| I64Column (rows : list (option Z)).

Record ColumnarRowSet := {
  row_capacity : nat;
  num_rows : nat;
  columns : list AnyColumnBuffer
}.

(** [ColumnarRowSet::set_num_rows]: panics beyond the capacity. *)
Definition set_num_rows (buf : ColumnarRowSet) (n : nat) : option ColumnarRowSet :=
  if (n <=? row_capacity buf)%nat
  then Some {| row_capacity := row_capacity buf; num_rows := n;
               columns := columns buf |}
  else None.

(** The body of [for column_index in 0..num_columns]: the [match] on the
    column reader, every arm of which is empty. *)
Definition transfer_column (odbc_buffer : ColumnarRowSet) (reader : ColumnReader)
    : ColumnarRowSet :=
  match reader with
  | BoolColumnReader _ => odbc_buffer
  | Int32ColumnReader _ => odbc_buffer
  | Int64ColumnReader _ => odbc_buffer
  | Int96ColumnReader _ => odbc_buffer
  | FloatColumnReader _ => odbc_buffer
  | DoubleColumnReader _ => odbc_buffer
  | ByteArrayColumnReader _ => odbc_buffer
  | FixedLenByteArrayColumnReader _ => odbc_buffer
  end.

(** [for column_index in 0..num_columns]: [get_column_reader(column_index)?]
    leaves [insert] with the first error, the [match] runs for each reader. *)
Fixpoint transfer_columns (odbc_buffer : ColumnarRowSet)
    (readers : list (ColumnReader + string)) : ColumnarRowSet + string :=
  match readers with
  | [] => inl odbc_buffer
  | inl reader :: rest => transfer_columns (transfer_column odbc_buffer reader) rest
  | inr e :: _ => inr e
  end.

(** A call that returns [Ok], returns [Err] (the [Result]), or panics. *)
Inductive Outcome (A : Type) :=
| Ok (a : A)
| Err (msg : string)
| Panic (msg : string).
Arguments Ok {A}. Arguments Err {A}. Arguments Panic {A}.

(** The row group loop of [insert]. [row_groups] lists what
    [reader.get_row_group(row_group_index)] returns for each index ([inr]
    of the error message on failure), and [execute executed batch] what
    [statement.execute(&odbc_buffer)] returns ([inl tt] for [Ok]) given the
    batches executed before. The result is the list of batches handed to
    [statement.execute], in order, with the outcome of the loop: the first
    [?] error ends it with [Err], [num_rows.try_into().unwrap()] panics on a
    negative count and [set_num_rows] beyond the capacity. *)
Fixpoint insert_loop (execute : list ColumnarRowSet -> ColumnarRowSet -> unit + string)
    (executed : list ColumnarRowSet) (odbc_buffer : ColumnarRowSet)
    (row_groups : list (RowGroup + string)) : list ColumnarRowSet * Outcome unit :=
  match row_groups with
  | [] => (executed, Ok tt)
  | inr e :: _ => (executed, Err e)
  | inl rg :: rest =>
      if rg_num_rows rg <? 0
      then (executed, Panic "called `Result::unwrap()` on an `Err` value"%string)
      else
      match set_num_rows odbc_buffer (Z.to_nat (rg_num_rows rg)) with
      | None => (executed, Panic "set_num_rows: num_rows exceeds the capacity"%string)
      | Some buf =>
          match transfer_columns buf (rg_columns rg) with
          | inr e => (executed, Err e)
          | inl buf' =>
              match execute executed buf' with
              | inl tt => insert_loop execute (executed ++ [buf']) buf' rest
              | inr e => (executed ++ [buf'], Err e)
              end
          end
      end
  end.

Definition insert_row_groups
    (execute : list ColumnarRowSet -> ColumnarRowSet -> unit + string)
    (odbc_buffer : ColumnarRowSet) (row_groups : list (RowGroup + string))
    : list ColumnarRowSet * Outcome unit :=
  insert_loop execute [] odbc_buffer row_groups.

(* ------------------------------------------------------------------ *)
(** ** [parquet_type_to_odbc_buffer_desc] *)

Inductive LogicalType :=
| NONE | UTF8 | MAP | MAP_KEY_VALUE | LIST | ENUM | DECIMAL | DATE
| TIME_MILLIS | TIME_MICROS | TIMESTAMP_MILLIS | TIMESTAMP_MICROS
| UINT_8 | UINT_16 | UINT_32 | UINT_64 | INT_8 | INT_16 | INT_32 | INT_64
| JSON | BSON | INTERVAL.

Inductive PhysicalType :=
| BOOLEAN | INT32 | INT64 | INT96 | FLOAT | DOUBLE | BYTE_ARRAY
| FIXED_LEN_BYTE_ARRAY.

Record ColumnDescriptor := {
  is_primitive : bool;
  is_optional : bool;
  logical_type : LogicalType;
  physical_type : PhysicalType;
  type_length : Z
}.

Inductive BufferKind := Text (max_str_len : nat) | I64Kind.

Record BufferDescription := { kind : BufferKind; nullable : bool }.

Definition parquet_type_to_odbc_buffer_desc (col_desc : ColumnDescriptor)
    : Outcome BufferDescription :=
  if negb (is_primitive col_desc)
  then Err "Only primitive parquet types are supported."%string else
  let nullable := is_optional col_desc in
  let kind :=
    match logical_type col_desc, physical_type col_desc with
    | UTF8, BYTE_ARRAY => Ok (Text 128)
    | UTF8, FIXED_LEN_BYTE_ARRAY =>
        (* [type_length().try_into().unwrap()] *)
        if type_length col_desc <? 0
        then Panic "called `Result::unwrap()` on an `Err` value"%string
        else Ok (Text (Z.to_nat (type_length col_desc)))
    | INT_64, INT64 => Ok I64Kind
    | UTF8, _ =>
        Panic "Unexpected combination of logical and physical parquet type."%string
    | (NONE | MAP | MAP_KEY_VALUE | LIST | ENUM | DECIMAL | DATE | TIME_MILLIS
      | TIME_MICROS | TIMESTAMP_MILLIS | TIMESTAMP_MICROS | UINT_8 | UINT_16
      | UINT_32 | UINT_64 | INT_8 | INT_16 | INT_32 | INT_64 | JSON | BSON
      | INTERVAL), _ => Panic "not yet implemented"%string
    end in
  match kind with
  | Ok kind => Ok {| kind := kind; nullable := nullable |}
  | Err m => Err m
  | Panic m => Panic m
  end.

(* ------------------------------------------------------------------ *)
(** ** [insert_statement_text] *)

(** [<[&str]>::join(sep)] *)
Fixpoint join (sep : string) (l : list string) : string :=
  match l with
  | [] => ""
  | [x] => x
  | x :: rest => x ++ sep ++ join sep rest
  end%string.

Definition insert_statement_text (table : string) (column_names : list string)
    : string :=
  let columns := join ", " column_names in
  let values := join ", " (map (fun _ => "?"%string) column_names) in
  ("INSERT INTO " ++ table ++ " (" ++ columns ++ ") VALUES (" ++ values
   ++ ");")%string.

(** The statement as the documentation describes it: the names separated
    by ", " and one placeholder per column. *)
Fixpoint comma_prefixed (names : list string) : string :=
  match names with
  | [] => ""
  | n :: rest => ", " ++ n ++ comma_prefixed rest
  end%string.

Definition comma_separated (names : list string) : string :=
  match names with
  | [] => ""
  | n :: rest => n ++ comma_prefixed rest
  end%string.

Fixpoint placeholders (n : nat) : string :=
  match n with
  | O => ""
  | S O => "?"
  | S m => "?, " ++ placeholders m
  end%string.

Definition spec_insert_statement (t : string) (cs : list string) : string :=
  ("INSERT INTO " ++ t ++ " (" ++ comma_separated cs ++ ") VALUES ("
   ++ placeholders (List.length cs) ++ ");")%string.

(* ------------------------------------------------------------------ *)
(** ** Well-formed decimal texts *)

(** [[-]digits[.digits]]: the texts the ODBC driver delivers for a
    [DECIMAL] column. *)
Definition decimal_text (neg : bool) (ip fp : list Z) : list Z :=
  (if neg then [45] else []) ++ map (fun d => 48 + d) ip ++
  match fp with [] => [] | _ => 46 :: map (fun d => 48 + d) fp end.

(* ------------------------------------------------------------------ *)
(** ** Dates and timestamps ([IntoPhysical] for [&Date] and [&Timestamp]) *)

(** odbc-api's [Date]: [year: i16], [month: u16], [day: u16]. *)
Record Date := { year : Z; month : Z; day : Z }.

(** odbc-api's [Timestamp]: the date fields, [hour], [minute], [second]
    ([u16]) and [fraction] ([u32], nanoseconds). *)
Record Timestamp := {
  ts_year : Z; ts_month : Z; ts_day : Z;
  hour : Z; minute : Z; second : Z; fraction : Z
}.

(** chrono's proleptic Gregorian calendar. *)
Definition is_leap_year (y : Z) : bool :=
  (y mod 4 =? 0) && (negb (y mod 100 =? 0) || (y mod 400 =? 0)).

Definition days_in_month (y m : Z) : Z :=
  if m =? 2 then (if is_leap_year y then 29 else 28)
  else if (m =? 4) || (m =? 6) || (m =? 9) || (m =? 11) then 30
  else if (1 <=? m) && (m <=? 12) then 31 else 0.

(** Days of the months before [m] in year [y]. *)
Definition days_before_month (y m : Z) : Z :=
  nth (Z.to_nat (m - 1)) [0; 31; 59; 90; 120; 151; 181; 212; 243; 273; 304; 334] 0
  + (if is_leap_year y && (2 <? m) then 1 else 0).

(** Days of the years before [y], counted from 0001-01-01. *)
Definition days_before_year (y : Z) : Z :=
  365 * (y - 1) + (y - 1) / 4 - (y - 1) / 100 + (y - 1) / 400.

Record NaiveDate := { nd_year : Z; nd_month : Z; nd_day : Z }.

(** [NaiveDate::from_ymd]: panics ("invalid or out-of-range date") unless
    the date exists and the year is within chrono's range. *)
Definition from_ymd (y m d : Z) : option NaiveDate :=
  if (-262144 <=? y) && (y <=? 262143) && (1 <=? m) && (m <=? 12) &&
     (1 <=? d) && (d <=? days_in_month y m)
  then Some {| nd_year := y; nd_month := m; nd_day := d |}
  else None.

(** [NaiveDate::num_days_from_ce]: 0001-01-01 is day 1. *)
Definition num_days_from_ce (date : NaiveDate) : Z :=
  days_before_year (nd_year date) + days_before_month (nd_year date) (nd_month date)
  + nd_day date.

(** [NaiveDate::from_ymd(1970, 1, 1)] *)
Definition unix_epoch : NaiveDate := {| nd_year := 1970; nd_month := 1; nd_day := 1 |}.

(** [date.signed_duration_since(other).num_days()] *)
Definition days_since (date other : NaiveDate) : Z :=
  num_days_from_ce date - num_days_from_ce other.

(** [IntoPhysical<i32> for &Date]: days since the Unix epoch; the date must
    exist, and [num_days().try_into::<i32>().unwrap()] panics beyond [i32]. *)
Definition date_into_physical (d : Date) : option Z :=
  match from_ymd (year d) (month d) (day d) with
  | Some date =>
      let n := days_since date unix_epoch in
      if (- 2 ^ 31 <=? n) && (n <=? 2 ^ 31 - 1) then Some n else None
  | None => None
  end.

Record NaiveDateTime := { ndt_date : NaiveDate; ndt_time : NaiveTime }.

(** [NaiveDate::and_hms_nano]: panics ("invalid time") as [from_hms_nano]. *)
Definition and_hms_nano (date : NaiveDate) (h m s nano : Z) : option NaiveDateTime :=
  match from_hms_nano h m s nano with
  | Some t => Some {| ndt_date := date; ndt_time := t |}
  | None => None
  end.

(** [NaiveDateTime::timestamp]: seconds since the epoch (no overflow for
    chrono's range of years). *)
Definition timestamp (dt : NaiveDateTime) : Z :=
  days_since (ndt_date dt) unix_epoch * 86400 + secs (ndt_time dt).

(** An [i64] result of wrapping arithmetic. *)
Definition wrap_i64 (x : Z) : Z := (x + 2 ^ 63) mod 2 ^ 64 - 2 ^ 63.

(** [NaiveDateTime::timestamp_nanos]:
    [self.timestamp() * 1_000_000_000 + self.timestamp_subsec_nanos()]. *)
Definition timestamp_nanos (dt : NaiveDateTime) : Z :=
  wrap_i64 (wrap_i64 (timestamp dt * 1000000000) + frac (ndt_time dt)).

(** [IntoPhysical<i64> for &Timestamp]: microseconds since the epoch,
    [timestamp_nanos() / 1000] with Rust's division (rounding toward
    zero). *)
Definition timestamp_into_physical (ts : Timestamp) : option Z :=
  match from_ymd (ts_year ts) (ts_month ts) (ts_day ts) with
  | Some date =>
      match and_hms_nano date (hour ts) (minute ts) (second ts) (fraction ts) with
      | Some dt => Some (Z.quot (timestamp_nanos dt) 1000)
      | None => None
      end
  | None => None
  end.

(** The calendar's next day, to state how the day count moves. *)
Definition next_day (d : Date) : Date :=
  if day d <? days_in_month (year d) (month d)
  then {| year := year d; month := month d; day := day d + 1 |}
  else if month d <? 12
  then {| year := year d; month := month d + 1; day := 1 |}
  else {| year := year d + 1; month := 1; day := 1 |}.

(* ================================================================== *)
(** * Properties *)

(* ------------------------------------------------------------------ *)
(** ** Big-endian bytes *)

Section BeBytes.

Lemma length_be_bytes k x : List.length (be_bytes k x) = k.
Proof.
  revert x; induction k as [|k IH]; intros x; cbn; [reflexivity|].
  rewrite length_app, IH; cbn; lia.
Qed.

Lemma pow256_succ k : 256 ^ Z.of_nat (S k) = 256 * 256 ^ Z.of_nat k.
Proof. rewrite Nat2Z.inj_succ, Z.pow_succ_r by lia. ring. Qed.

Lemma pow256_pos k : 0 < 256 ^ Z.of_nat k.
Proof. apply Z.pow_pos_nonneg; lia. Qed.

(** Splitting [a + b] bytes into the high [a] and the low [b]. *)
Lemma be_bytes_split a b x :
  be_bytes (a + b) x = be_bytes a (x / 256 ^ Z.of_nat b) ++ be_bytes b x.
Proof.
  revert x; induction b as [|b IH]; intros x.
  - rewrite Nat.add_0_r, Z.pow_0_r, Z.div_1_r, app_nil_r; reflexivity.
  - rewrite Nat.add_succ_r; cbn [be_bytes].
    rewrite IH, app_assoc, Z.div_div by (lia || apply pow256_pos).
    rewrite pow256_succ; reflexivity.
Qed.

(** Only the residue modulo [256^k] matters. *)
Lemma be_bytes_mod k x : be_bytes k (x mod 256 ^ Z.of_nat k) = be_bytes k x.
Proof.
  revert x; induction k as [|k IH]; intros x; [reflexivity|].
  cbn [be_bytes]. rewrite pow256_succ.
  pose proof (pow256_pos k) as Hp.
  rewrite Z.rem_mul_r by lia.
  replace ((x mod 256 + 256 * ((x / 256) mod 256 ^ Z.of_nat k)) / 256)
    with ((x / 256) mod 256 ^ Z.of_nat k).
  2:{ rewrite Z.add_comm, Z.mul_comm, Z.div_add_l by lia.
      rewrite (Z.div_small (x mod 256)) by (apply Z.mod_pos_bound; lia). lia. }
  replace ((x mod 256 + 256 * ((x / 256) mod 256 ^ Z.of_nat k)) mod 256)
    with (x mod 256).
  2:{ rewrite Z.mul_comm, Z.mod_add by lia.
      rewrite Z.mod_mod by lia. reflexivity. }
  rewrite IH; reflexivity.
Qed.

Lemma be_bytes_zero k : be_bytes k 0 = repeat 0 k.
Proof.
  induction k as [|k IH]; [reflexivity|].
  cbn [be_bytes]. change (0 / 256) with 0. change (0 mod 256) with 0.
  rewrite IH, <- repeat_cons; reflexivity.
Qed.

Lemma be_bytes_minus_one k : be_bytes k (-1) = repeat 255 k.
Proof.
  induction k as [|k IH]; [reflexivity|].
  cbn [be_bytes]. change (-1 / 256) with (-1). change (-1 mod 256) with 255.
  rewrite IH, <- repeat_cons.
  reflexivity.
Qed.

(** Sign extension: a value that fits in [k] bytes, written in [L >= k]
    bytes, is its [k]-byte form behind [L - k] copies of the sign byte. *)
Lemma be_bytes_sign_extend k L x :
  (k <= L)%nat -> fits_signed k x ->
  be_bytes L x = repeat (if x <? 0 then 255 else 0) (L - k) ++ be_bytes k x.
Proof.
  intros Hk [Hlo Hhi].
  replace L with ((L - k) + k)%nat at 1 by lia.
  rewrite be_bytes_split. f_equal.
  pose proof (pow256_pos k) as Hp.
  destruct (Z.ltb_spec x 0).
  - replace (x / 256 ^ Z.of_nat k) with (-1).
    + apply be_bytes_minus_one.
    + apply Z.div_unique with (r := x + 256 ^ Z.of_nat k); lia.
  - rewrite Z.div_small by lia. apply be_bytes_zero.
Qed.

Lemma be_value_be_bytes k x : be_value (be_bytes k x) = x mod 256 ^ Z.of_nat k.
Proof.
  revert x; induction k as [|k IH]; intros x.
  - cbn. rewrite Z.mod_1_r. reflexivity.
  - cbn [be_bytes]. unfold be_value in *. rewrite fold_left_app, IH.
    cbn [fold_left]. rewrite pow256_succ.
    pose proof (pow256_pos k).
    rewrite Z.rem_mul_r by lia. ring.
Qed.

Lemma signed_be_value_be_bytes k x :
  fits_signed k x -> signed_be_value (be_bytes k x) = x.
Proof.
  intros [Hlo Hhi]. unfold signed_be_value.
  rewrite be_value_be_bytes, length_be_bytes.
  pose proof (pow256_pos k) as Hp.
  destruct (Z.ltb_spec x 0).
  - rewrite <- (Z.mod_unique x _ (-1) (x + 256 ^ Z.of_nat k)) by lia.
    destruct (Z.ltb_spec (2 * (x + 256 ^ Z.of_nat k)) (256 ^ Z.of_nat k)); lia.
  - rewrite Z.mod_small by lia.
    destruct (Z.ltb_spec (2 * x) (256 ^ Z.of_nat k)); lia.
Qed.

End BeBytes.

(* ------------------------------------------------------------------ *)
(** ** The radix-10 parsers under wrap-around *)

Section Radix10.

Variable M : Z.
Hypothesis M_pos : 0 < M.

(** Wrapping every step is wrapping the exact result once. *)
Lemma radix_10_loop_mod text : forall neg a a0 index,
  a0 = a mod M ->
  fst (radix_10_loop (fun x => x mod M) neg a0 index text)
  = fst (radix_10_loop (fun x => x) neg a index text) mod M.
Proof.
  induction text as [|c rest IH]; intros neg a a0 index ->; cbn; [reflexivity|].
  destruct (ascii_to_digit c) as [digit|]; [|reflexivity].
  apply IH. destruct neg.
  - rewrite <- Zminus_mod_idemp_l, Z.mul_mod_idemp_l, Zminus_mod_idemp_l
      by lia. reflexivity.
  - rewrite <- Z.add_mod_idemp_l, Z.mul_mod_idemp_l, Z.add_mod_idemp_l
      by lia. reflexivity.
Qed.

Lemma from_radix_10_signed_mod text :
  fst (from_radix_10_signed (fun x => x mod M) text)
  = fst (from_radix_10_signed (fun x => x) text) mod M.
Proof.
  unfold from_radix_10_signed.
  destruct text as [|c rest].
  { cbn. first [reflexivity | rewrite Z.mod_0_l by lia; reflexivity]. }
  destruct (c =? 43); [|destruct (c =? 45)];
    apply radix_10_loop_mod; rewrite Z.mod_0_l by lia; reflexivity.
Qed.

End Radix10.

(* ------------------------------------------------------------------ *)
(** ** The two decimal paths *)

Lemma signed_bytes_len_fits n :
  (1 <= signed_bytes_len n)%nat /\ fits_signed (signed_bytes_len n) n.
Proof.
  unfold signed_bytes_len, fits_signed.
  set (m := if 0 <=? n then n else - n - 1).
  assert (Hm0 : 0 <= m) by (subst m; destruct (Z.leb_spec 0 n); lia).
  assert (Hl : 0 <= Z.log2 m) by apply Z.log2_nonneg.
  assert (Hq : 0 <= (Z.log2 m + 1) / 8) by (apply Z.div_pos; lia).
  rewrite Z2Nat.id by lia. split; [lia|].
  assert (Hm : m + 1 <= 2 ^ (Z.log2 m + 1)).
  { destruct (Z.eq_dec m 0) as [->|Hne]; [cbn; lia|].
    destruct (Z.log2_spec m) as [_ H]; [lia|]. rewrite <- Z.add_1_r in H. lia. }
  assert (H8 : Z.log2 m + 2 <= 8 * ((Z.log2 m + 1) / 8 + 1)).
  { pose proof (Z.mul_div_le (Z.log2 m + 1) 8) as Hd.
    pose proof (Z.mod_pos_bound (Z.log2 m + 1) 8) as Hb.
    pose proof (Z.div_mod (Z.log2 m + 1) 8) as He. lia. }
  assert (Hpow : 2 * (m + 1) <= 256 ^ ((Z.log2 m + 1) / 8 + 1)).
  { change 256 with (2 ^ 8). rewrite <- Z.pow_mul_r by lia.
    transitivity (2 ^ (Z.log2 m + 2)).
    - replace (Z.log2 m + 2) with (Z.succ (Z.log2 m + 1)) by lia.
      rewrite Z.pow_succ_r by lia. lia.
    - apply Z.pow_le_mono_r; lia. }
  subst m. destruct (Z.leb_spec 0 n); lia.
Qed.

Lemma fits_signed_mono k L x :
  (k <= L)%nat -> fits_signed k x -> fits_signed L x.
Proof.
  unfold fits_signed. intros Hk H.
  assert (256 ^ Z.of_nat k <= 256 ^ Z.of_nat L) by (apply Z.pow_le_mono_r; lia).
  lia.
Qed.

(** [rotate_right] after [resize] puts the fill in front. *)
Lemma rotate_right_resize {A} (out : list A) L (fill : A) :
  (List.length out <= L)%nat ->
  rotate_right (vec_resize out L fill) (L - List.length out)
  = repeat fill (L - List.length out) ++ out.
Proof.
  intros Hle. unfold rotate_right, vec_resize.
  rewrite firstn_all2 by lia.
  rewrite length_app, repeat_length.
  replace (List.length out + (L - List.length out) - (L - List.length out))%nat
    with (List.length out) by lia.
  rewrite skipn_app, firstn_app, Nat.sub_diag, skipn_all, firstn_all.
  cbn. rewrite app_nil_r. reflexivity.
Qed.

Lemma twos_complement_big_int_eq decimal L :
  twos_complement_big_int decimal L =
  if (signed_bytes_len (decimal_value decimal) <=? L)%nat
  then Some (be_bytes L (decimal_value decimal)) else None.
Proof.
  unfold twos_complement_big_int, to_signed_bytes_be.
  fold (decimal_value decimal). set (n := decimal_value decimal).
  pose proof (length_be_bytes (signed_bytes_len n) n) as Hlen.
  set (out := be_bytes (signed_bytes_len n) n) in *.
  rewrite <- Hlen.
  destruct (Nat.leb_spec (List.length out) L) as [Hle|]; [|reflexivity].
  f_equal. rewrite rotate_right_resize by exact Hle.
  rewrite Hlen. subst out. symmetry.
  apply be_bytes_sign_extend; [lia|apply signed_bytes_len_fits].
Qed.

Lemma twos_complement_i128_eq decimal L :
  twos_complement_i128 decimal L =
  if (L <=? 16)%nat then Some (be_bytes L (decimal_value decimal)) else None.
Proof.
  unfold twos_complement_i128, i128_to_be_bytes, wrap_i128.
  rewrite from_radix_10_signed_mod by lia. fold (decimal_value decimal).
  destruct (Nat.leb_spec L 16) as [Hle|]; [|reflexivity].
  f_equal. change (2 ^ 128) with (256 ^ Z.of_nat 16). rewrite be_bytes_mod.
  replace 16%nat with ((16 - L) + L)%nat at 2 by lia.
  rewrite be_bytes_split, skipn_app, skipn_all2 by (rewrite length_be_bytes; lia).
  rewrite length_be_bytes, Nat.sub_diag. reflexivity.
Qed.

(** C1: wherever both are defined, the [i128] fast path and the [BigInt]
    path of the decimal encoder produce the same bytes, for every decimal
    text and target length. *)
Theorem decimal_paths_agree decimal length a b :
  twos_complement_i128 decimal length = Some a ->
  twos_complement_big_int decimal length = Some b ->
  a = b.
Proof.
  rewrite twos_complement_i128_eq, twos_complement_big_int_eq.
  destruct (length <=? 16)%nat; [|discriminate].
  destruct (signed_bytes_len (decimal_value decimal) <=? length)%nat;
    [|discriminate].
  congruence.
Qed.

Lemma decimal_paths_agree_witness :
  twos_complement_i128 "-12345.67" 5 = Some [255; 255; 237; 41; 121] /\
  twos_complement_big_int "-12345.67" 5 = Some [255; 255; 237; 41; 121] /\
  [255; 255; 237; 41; 121] = [255; 255; 237; 41; 121].
Proof.
  assert (Ha : twos_complement_i128 "-12345.67" 5 = Some [255; 255; 237; 41; 121])
    by (vm_compute; reflexivity).
  assert (Hb : twos_complement_big_int "-12345.67" 5 = Some [255; 255; 237; 41; 121])
    by (vm_compute; reflexivity).
  split; [exact Ha|split; [exact Hb|]].
  exact (decimal_paths_agree "-12345.67" 5 _ _ Ha Hb).
Defined.

(** C5: on the arbitrary-precision path the output has exactly [length]
    bytes: the minimal two's complement of the value behind leading fill
    bytes, [0xFF] for a negative value and [0x00] otherwise; read back as
    a two's-complement big-endian integer it is the parsed value. *)
Theorem big_int_sign_extension decimal length b :
  twos_complement_big_int decimal length = Some b ->
  List.length b = length /\
  b = repeat (if decimal_value decimal <? 0 then 255 else 0)
        (length - List.length (to_signed_bytes_be (decimal_value decimal)))
      ++ to_signed_bytes_be (decimal_value decimal) /\
  signed_be_value b = decimal_value decimal.
Proof.
  intros H.
  pose proof (signed_bytes_len_fits (decimal_value decimal)) as [_ Hfit].
  pose proof H as H'.
  rewrite twos_complement_big_int_eq in H'.
  destruct (Nat.leb_spec (signed_bytes_len (decimal_value decimal)) length)
    as [Hle|]; [|discriminate].
  injection H' as <-.
  split; [apply length_be_bytes|split].
  - unfold to_signed_bytes_be. rewrite length_be_bytes.
    apply be_bytes_sign_extend; assumption.
  - apply signed_be_value_be_bytes. eapply fits_signed_mono; eassumption.
Qed.

Lemma big_int_sign_extension_witness :
  twos_complement_big_int "-1.28" 3 = Some [255; 255; 128] /\
  List.length [255; 255; 128] = 3%nat /\
  [255; 255; 128] = repeat (if decimal_value "-1.28" <? 0 then 255 else 0)
        (3 - List.length (to_signed_bytes_be (decimal_value "-1.28")))
      ++ to_signed_bytes_be (decimal_value "-1.28") /\
  signed_be_value [255; 255; 128] = decimal_value "-1.28".
Proof.
  assert (H : twos_complement_big_int "-1.28" 3 = Some [255; 255; 128])
    by (vm_compute; reflexivity).
  exact (conj H (big_int_sign_extension "-1.28" 3 _ H)).
Defined.

(** C9: for a column with precision below 39 the encoder is the [i128]
    path; it yields exactly [type_length] bytes when [type_length <= 16],
    and nothing checks that bound: beyond 16 bytes it panics. *)
Theorem fast_path_length_bound precision type_length decimal :
  0 <= precision < 39 -> 0 <= type_length ->
  (type_length <= 16 ->
   exists b, decimal_encoder precision type_length decimal = Some b /\
             List.length b = Z.to_nat type_length) /\
  (16 < type_length -> decimal_encoder precision type_length decimal = None).
Proof.
  intros Hp Ht. unfold decimal_encoder.
  destruct (Z.ltb_spec precision 0); [lia|].
  destruct (Z.ltb_spec type_length 0); [lia|].
  destruct (Z.ltb_spec precision 39); [|lia]. cbn [orb].
  rewrite twos_complement_i128_eq. split; intros Hl.
  - destruct (Nat.leb_spec (Z.to_nat type_length) 16); [|lia].
    eexists; split; [reflexivity|apply length_be_bytes].
  - destruct (Nat.leb_spec (Z.to_nat type_length) 16); [lia|reflexivity].
Qed.

Lemma fast_path_length_bound_witness :
  (0 <= 38 < 39 /\ 0 <= 17) /\ decimal_encoder 38 17 "1.5" = None.
Proof.
  split; [lia|].
  apply (proj2 (fast_path_length_bound 38 17 "1.5" ltac:(lia) ltac:(lia))).
  lia.
Defined.

(* ------------------------------------------------------------------ *)
(** ** The insert statement *)

Lemma join_comma x rest :
  join ", " (x :: rest) = (x ++ comma_prefixed rest)%string.
Proof.
  revert x; induction rest as [|y rest IH]; intros x.
  - cbn. induction x as [|c x IHx]; cbn; [reflexivity|]. rewrite <- IHx. reflexivity.
  - change (join ", " (x :: y :: rest)) with (x ++ ", " ++ join ", " (y :: rest))%string.
    rewrite IH. reflexivity.
Qed.

Lemma join_placeholders (cs : list string) :
  join ", " (map (fun _ => "?"%string) cs) = placeholders (List.length cs).
Proof.
  induction cs as [|c cs IH]; [reflexivity|].
  destruct cs as [|c' cs]; [reflexivity|].
  change (join ", " (map (fun _ => "?"%string) (c :: c' :: cs)))
    with ("?" ++ ", " ++ join ", " (map (fun _ => "?"%string) (c' :: cs)))%string.
  rewrite IH. reflexivity.
Qed.

(** C10: the statement text is [INSERT INTO t (c1, ..., cn) VALUES (?, ..., ?);],
    the names joined by ", " in the given order and one placeholder per
    column. *)
Theorem insert_statement_text_shape table column_names :
  insert_statement_text table column_names
  = spec_insert_statement table column_names.
Proof.
  unfold insert_statement_text, spec_insert_statement.
  rewrite join_placeholders. f_equal. f_equal. f_equal. f_equal.
  destruct column_names as [|c cs]; [reflexivity|]. apply join_comma.
Qed.

(* ------------------------------------------------------------------ *)
(** ** [set_num_rows_fetched] *)

Lemma length_vec_resize {A} (l : list A) n x :
  List.length (vec_resize l n x) = n.
Proof. unfold vec_resize; rewrite length_app, length_firstn, repeat_length; lia. Qed.

Lemma nth_error_vec_resize {A} (l : list A) n x i :
  (i < n)%nat ->
  nth_error (vec_resize l n x) i
  = Some (if (i <? List.length l)%nat then nth i l x else x).
Proof.
  intros Hi. unfold vec_resize.
  destruct (Nat.ltb_spec i (List.length l)).
  - rewrite nth_error_app1 by (rewrite length_firstn; lia).
    rewrite nth_error_firstn. destruct (Nat.ltb_spec i n); [|lia].
    apply nth_error_nth'. assumption.
  - rewrite nth_error_app2 by (rewrite length_firstn; lia).
    rewrite length_firstn. apply nth_error_repeat. lia.
Qed.

(** C8 fails: a marker kept from the previous batch is not reset. *)
Lemma set_num_rows_fetched_keeps_marker :
  ~ (forall pb rows,
       Forall (fun d => d = 0) (def_levels (set_num_rows_fetched pb rows))).
Proof.
  intros H.
  specialize (H {| values_i32 := [7]; values_i64 := [7]; values_f32 := [0];
                   values_f64 := [0]; values_bytes_array := [None];
                   values_bool := [true]; def_levels := [1] |} 1%nat).
  cbn in H. inversion H. discriminate.
Qed.

(** C8 (amended): [set_num_rows_fetched rows] gives every value array and
    the validity array length [rows]; a slot below the previous length
    keeps its marker, a newly added slot is 0 (absent). *)
Theorem set_num_rows_fetched_spec pb rows :
  List.length (values_i32 (set_num_rows_fetched pb rows)) = rows /\
  List.length (values_i64 (set_num_rows_fetched pb rows)) = rows /\
  List.length (values_f32 (set_num_rows_fetched pb rows)) = rows /\
  List.length (values_f64 (set_num_rows_fetched pb rows)) = rows /\
  List.length (values_bytes_array (set_num_rows_fetched pb rows)) = rows /\
  List.length (values_bool (set_num_rows_fetched pb rows)) = rows /\
  List.length (def_levels (set_num_rows_fetched pb rows)) = rows /\
  (forall i, (i < rows)%nat ->
     nth_error (def_levels (set_num_rows_fetched pb rows)) i
     = Some (if (i <? List.length (def_levels pb))%nat
             then nth i (def_levels pb) 0 else 0)).
Proof.
  cbn. repeat split; try apply length_vec_resize.
  intros i Hi. apply nth_error_vec_resize. exact Hi.
Qed.

(* ------------------------------------------------------------------ *)
(** ** [write_optional_any] *)

Lemma set_nth_spec {A} (l : list A) i x :
  (i < List.length l)%nat ->
  set_nth l i x = Some (firstn i l ++ x :: skipn (S i) l).
Proof.
  revert i; induction l as [|y l IH]; intros i Hi; cbn in Hi; [lia|].
  destruct i as [|i]; [reflexivity|].
  cbn. rewrite IH by lia. reflexivity.
Qed.

Lemma length_present_values {A} (items : list (option A)) :
  (List.length (present_values items) <= List.length items)%nat.
Proof.
  induction items as [|[v|] items IH]; cbn; lia.
Qed.

Lemma count_markers {A} (items : list (option A)) :
  count_occ Z.eq_dec (map marker items) 1 = List.length (present_values items).
Proof.
  induction items as [|[v|] items IH]; cbn; [reflexivity| |];
    rewrite IH; reflexivity.
Qed.

Lemma firstn_set_middle {A} (l : list A) i x :
  (i <= List.length l)%nat ->
  firstn (S i) (firstn i l ++ x :: skipn (S i) l) = firstn i l ++ [x].
Proof.
  intros Hi. rewrite firstn_app, length_firstn.
  replace (Nat.min i (List.length l)) with i by lia.
  rewrite firstn_all2 by (rewrite length_firstn; lia).
  replace (S i - i)%nat with 1%nat by lia. reflexivity.
Qed.

Lemma skipn_set_middle {A} (l : list A) i x k :
  (i <= List.length l)%nat ->
  skipn (S i + k) (firstn i l ++ x :: skipn (S i) l) = skipn (S i + k) l.
Proof.
  intros Hi. rewrite skipn_app, length_firstn.
  replace (Nat.min i (List.length l)) with i by lia.
  rewrite skipn_all2 by (rewrite length_firstn; lia).
  replace (S i + k - i)%nat with (S k) by lia.
  change (skipn (S k) (x :: skipn (S i) l)) with (skipn k (skipn (S i) l)).
  rewrite skipn_skipn. cbn [app]. f_equal. lia.
Qed.

(** The loop writes one marker per consumed item and packs the present
    values from [values_index] on, leaving the other slots alone. *)
Lemma fill_column_spec {Src T} (f : Src -> T) source : forall defs values idx,
  (idx + List.length (present_values (firstn (List.length defs) source))
     <= List.length values)%nat ->
  fill_column f source defs values idx =
  Some (map marker (firstn (List.length defs) source)
          ++ skipn (List.length source) defs,
        firstn idx values
          ++ map f (present_values (firstn (List.length defs) source))
          ++ skipn (idx + List.length
                       (present_values (firstn (List.length defs) source)))
               values).
Proof.
  induction source as [|item source IH]; intros defs values idx Hlen.
  - rewrite firstn_nil. cbn. rewrite Nat.add_0_r, firstn_skipn.
    reflexivity.
  - destruct defs as [|d defs].
    + cbn. rewrite Nat.add_0_r, firstn_skipn. reflexivity.
    + cbn [List.length firstn fill_column] in *.
      destruct item as [v|]; cbn [present_values map List.length] in *.
      * rewrite set_nth_spec by lia.
        rewrite IH by (rewrite length_app; cbn [List.length]; rewrite length_firstn,
                         length_skipn; lia).
        rewrite firstn_set_middle, skipn_set_middle by lia.
        rewrite <- app_assoc. cbn [app marker skipn].
        rewrite Nat.add_succ_r. reflexivity.
      * rewrite IH by lia. reflexivity.
Qed.

(** The consumed prefix: markers, their count and the packed values. *)
Lemma write_optional_any_prefix {Src T} `{BufferedDataType T}
    (pb : ParquetBuffer) (num_rows : nat) (source : list (option Src))
    (into_physical : Src -> T) :
  exists pb' values defs,
    write_optional_any (set_num_rows_fetched pb num_rows) source into_physical
      = Some (pb', (values, defs)) /\
    firstn (List.length (firstn num_rows source)) defs
      = map marker (firstn num_rows source) /\
    count_occ Z.eq_dec (firstn (List.length (firstn num_rows source)) defs) 1
      = List.length (present_values (firstn num_rows source)) /\
    firstn (List.length (present_values (firstn num_rows source))) values
      = map into_physical (present_values (firstn num_rows source)) /\
    List.length values = num_rows /\
    List.length defs = num_rows.
Proof.
  unfold write_optional_any.
  pose proof (mut_buf_def_levels (set_num_rows_fetched pb num_rows)) as Hd.
  pose proof (mut_buf_resized pb num_rows) as Hv.
  destruct (mut_buf (set_num_rows_fetched pb num_rows)) as [values defs].
  cbn in Hd, Hv.
  assert (Hdl : List.length defs = num_rows)
    by (rewrite Hd; apply length_vec_resize).
  pose proof (length_present_values (firstn (List.length defs) source)) as Hp.
  rewrite length_firstn in Hp.
  rewrite fill_column_spec by (cbn; lia).
  rewrite Hdl.
  set (items := firstn num_rows source).
  assert (Hmark : List.length (map marker items) = List.length items)
    by apply length_map.
  do 3 eexists. split; [reflexivity|].
  rewrite firstn_app, <- Hmark, firstn_all, Nat.sub_diag. cbn [firstn].
  rewrite app_nil_r. split; [reflexivity|]. split; [apply count_markers|].
  cbn [firstn app]. split.
  - rewrite firstn_app, firstn_all2 by (rewrite length_map; lia).
    rewrite length_map, Nat.sub_diag, app_nil_r. reflexivity.
  - subst items. rewrite Hdl in Hp. split.
    + rewrite !length_app, length_map, length_skipn. lia.
    + rewrite length_app, length_map, length_firstn, length_skipn. lia.
Qed.

(** The levels handed to [write_batch]: the markers of the consumed items,
    then what [set_num_rows_fetched] left in the rest. *)
Lemma write_optional_any_levels {Src T} `{BufferedDataType T}
    (pb : ParquetBuffer) (num_rows : nat) (source : list (option Src))
    (into_physical : Src -> T) :
  exists pb' values,
    write_optional_any (set_num_rows_fetched pb num_rows) source into_physical
    = Some (pb', (values, map marker (firstn num_rows source)
                          ++ skipn (List.length source)
                               (vec_resize (def_levels pb) num_rows 0))).
Proof.
  unfold write_optional_any.
  pose proof (mut_buf_def_levels (set_num_rows_fetched pb num_rows)) as Hd.
  pose proof (mut_buf_resized pb num_rows) as Hv.
  destruct (mut_buf (set_num_rows_fetched pb num_rows)) as [values defs].
  cbn in Hd, Hv. subst defs.
  rewrite fill_column_spec.
  - rewrite length_vec_resize. do 2 eexists. reflexivity.
  - rewrite length_vec_resize, Hv.
    pose proof (length_present_values (firstn num_rows source)).
    rewrite length_firstn in *. lia.
Qed.

(** C4 fails: a source shorter than the batch leaves the levels of the
    remaining rows as they were; here one present value is written with
    three 1 markers, kept from the previous batch. *)
Lemma write_optional_any_stale_markers :
  exists pb',
    (write_optional_any
      (set_num_rows_fetched
         {| values_i32 := [7; 8; 9]; values_i64 := []; values_f32 := [];
            values_f64 := []; values_bytes_array := []; values_bool := [];
            def_levels := [1; 1; 1] |} 3)
      [Some 5] (fun x : Z => x))
    = Some (pb', ([5; 8; 9], [1; 1; 1])) /\
    count_occ Z.eq_dec [1; 1; 1] 1 <> List.length (present_values [Some 5]).
Proof.
  eexists. split; [reflexivity|]. cbn. discriminate.
Qed.

(** C4 (amended): after [set_num_rows_fetched num_rows], [write_optional_any]
    hands [num_rows] values and [num_rows] levels to [write_batch]. For the
    items the loop consumes (the first [num_rows]) each level is 1 exactly
    when the item is present, the number of those 1 levels is the number of
    values written, and the values fill the front of the value array in
    source order. The levels from the end of the source on keep what
    [set_num_rows_fetched] left; when the source has at least [num_rows]
    items the count of 1 levels in the whole array is the number of values
    written. *)
Theorem write_optional_any_packs {Src T} `{BufferedDataType T}
    (pb : ParquetBuffer) (num_rows : nat) (source : list (option Src))
    (into_physical : Src -> T) :
  exists pb' values defs,
    write_optional_any (set_num_rows_fetched pb num_rows) source into_physical
      = Some (pb', (values, defs)) /\
    defs = map marker (firstn num_rows source)
           ++ skipn (List.length source) (vec_resize (def_levels pb) num_rows 0) /\
    firstn (List.length (firstn num_rows source)) defs
      = map marker (firstn num_rows source) /\
    count_occ Z.eq_dec (firstn (List.length (firstn num_rows source)) defs) 1
      = List.length (present_values (firstn num_rows source)) /\
    firstn (List.length (present_values (firstn num_rows source))) values
      = map into_physical (present_values (firstn num_rows source)) /\
    List.length values = num_rows /\
    List.length defs = num_rows /\
    ((num_rows <= List.length source)%nat ->
     count_occ Z.eq_dec defs 1
     = List.length (present_values (firstn num_rows source))).
Proof.
  destruct (write_optional_any_prefix pb num_rows source into_physical)
    as (pb' & values & defs & Hw & H1 & H2 & H3 & H4 & H5).
  destruct (write_optional_any_levels pb num_rows source into_physical)
    as (pb'' & values' & Hw').
  rewrite Hw in Hw'. injection Hw' as _ _ Hdefs.
  exists pb', values, defs.
  split; [exact Hw|]. split; [exact Hdefs|].
  do 5 (split; [assumption|]).
  intros Hle. rewrite Hdefs.
  rewrite skipn_all2 by (rewrite length_vec_resize; exact Hle).
  rewrite app_nil_r. apply count_markers.
Qed.

(* ------------------------------------------------------------------ *)
(** ** The type mapping *)

(** C3 fails: a declared but unimplemented combination (here a [DATE]
    column) reaches [todo!()] and panics instead of returning an error. *)
Lemma resolve_date_panics :
  parquet_type_to_odbc_buffer_desc
    {| is_primitive := true; is_optional := true; logical_type := DATE;
       physical_type := INT32; type_length := 0 |}
  = Panic "not yet implemented"%string.
Proof. reflexivity. Qed.

(** C3 (amended): the resolver returns an error [Result] exactly for a
    non-primitive column. A primitive column resolves when it is UTF8 in a
    byte array, UTF8 in a fixed-length byte array of non-negative length,
    or INT_64 in an INT64; every other combination panics. *)
Theorem resolve_outcomes col_desc :
  ((exists msg, parquet_type_to_odbc_buffer_desc col_desc = Err msg)
     <-> is_primitive col_desc = false) /\
  (is_primitive col_desc = true ->
   ((exists d, parquet_type_to_odbc_buffer_desc col_desc = Ok d) <->
    (logical_type col_desc = UTF8 /\ physical_type col_desc = BYTE_ARRAY) \/
    (logical_type col_desc = UTF8 /\
     physical_type col_desc = FIXED_LEN_BYTE_ARRAY /\ 0 <= type_length col_desc) \/
    (logical_type col_desc = INT_64 /\ physical_type col_desc = INT64)) /\
   ((exists d, parquet_type_to_odbc_buffer_desc col_desc = Ok d) \/
    (exists msg, parquet_type_to_odbc_buffer_desc col_desc = Panic msg))).
Proof.
  destruct col_desc as [prim opt lt pt tl].
  unfold parquet_type_to_odbc_buffer_desc; cbn [is_primitive logical_type
    physical_type type_length].
  destruct prim; cbn [negb].
  - split.
    + split; [intros [msg Hm]|discriminate].
      destruct lt, pt; try destruct (tl <? 0); discriminate.
    + intros _.
      destruct lt, pt; try destruct (Z.ltb_spec tl 0);
       (split;
        [ split;
          [ intros [d Hd];
            first [ discriminate
                  | left; split; reflexivity
                  | right; left; repeat split; lia
                  | right; right; split; reflexivity ]
          | intros [[H1 H2]|[[H1 [H2 H3]]|[H1 H2]]];
            first [ discriminate | lia | eexists; reflexivity ] ]
        | first [ left; eexists; reflexivity | right; eexists; reflexivity ] ]).
  - split; [split; [intros _; reflexivity|intros _; eexists; reflexivity]
           |intros H; discriminate].
Qed.

(* ------------------------------------------------------------------ *)
(** ** The insert loop *)

Lemma transfer_columns_id (odbc_buffer : ColumnarRowSet) readers buf' :
  transfer_columns odbc_buffer readers = inl buf' -> buf' = odbc_buffer.
Proof.
  revert odbc_buffer; induction readers as [|[r|e] readers IH]; intros buf H;
    cbn in H.
  - injection H as <-. reflexivity.
  - apply IH in H. subst buf'. destruct r; reflexivity.
  - discriminate.
Qed.

Lemma insert_loop_unfilled execute executed odbc_buffer row_groups :
  Forall (fun b => columns b = columns odbc_buffer) executed ->
  Forall (fun b => columns b = columns odbc_buffer)
    (fst (insert_loop execute executed odbc_buffer row_groups)).
Proof.
  revert executed odbc_buffer.
  induction row_groups as [|[rg|e] rest IH]; intros executed buf Hex; cbn;
    [exact Hex| |exact Hex].
  destruct (rg_num_rows rg <? 0); [exact Hex|].
  unfold set_num_rows.
  destruct (Z.to_nat (rg_num_rows rg) <=? row_capacity buf)%nat; [|exact Hex].
  destruct (transfer_columns _ (rg_columns rg)) as [buf'|e] eqn:Et; [|exact Hex].
  apply transfer_columns_id in Et. subst buf'.
  assert (Hex' : Forall (fun b => columns b = columns buf)
                   (executed ++ [{| row_capacity := row_capacity buf;
                                    num_rows := Z.to_nat (rg_num_rows rg);
                                    columns := columns buf |}]))
    by (apply Forall_app; split; [exact Hex|constructor; [reflexivity|constructor]]).
  destruct (execute _ _) as [[]|e]; [|exact Hex'].
  exact (IH _ {| row_capacity := row_capacity buf;
                 num_rows := Z.to_nat (rg_num_rows rg);
                 columns := columns buf |} Hex').
Qed.

(** Every buffer handed to [statement.execute] carries the column contents
    the buffer had when it was allocated, whatever the file holds and
    however the loop ends. *)
Lemma insert_executes_unfilled_buffers execute odbc_buffer row_groups :
  Forall (fun b => columns b = columns odbc_buffer)
    (fst (insert_row_groups execute odbc_buffer row_groups)).
Proof. apply insert_loop_unfilled. constructor. Qed.

(** C2 fails: a file with one row group holding the BIGINT value 1 is
    inserted by executing a batch whose column still holds what
    [ColumnarRowSet::new] allocated (here all NULL); the value 1 never
    reaches the batch. *)
Theorem insert_batch_not_populated :
  insert_row_groups (fun _ _ => inl tt)
    {| row_capacity := 500; num_rows := 0;
       columns := [I64Column (repeat None 500)] |}
    [inl {| rg_num_rows := 1; rg_columns := [inl (Int64ColumnReader [Some 1])] |}]
  = ([{| row_capacity := 500; num_rows := 1;
         columns := [I64Column (repeat None 500)] |}], Ok tt).
Proof. reflexivity. Qed.

(* ------------------------------------------------------------------ *)
(** ** Time parsing *)

Lemma ascii_to_digit_digit d : is_digit d -> ascii_to_digit (48 + d) = Some d.
Proof.
  unfold is_digit, ascii_to_digit. intros Hd.
  destruct (Z.leb_spec 48 (48 + d)); [|lia].
  destruct (Z.leb_spec (48 + d) 57); [|lia].
  cbn [andb]. f_equal. lia.
Qed.

Lemma radix_10_loop_cons norm neg number index c rest :
  radix_10_loop norm neg number index (c :: rest) =
  match ascii_to_digit c with
  | Some digit =>
      radix_10_loop norm neg
        (norm (if neg then number * 10 - digit else number * 10 + digit))
        (S index) rest
  | None => (number, index)
  end.
Proof. reflexivity. Qed.

Lemma radix_10_loop_digits ds : forall a index,
  Forall is_digit ds ->
  radix_10_loop (fun x => x) false a index (map (fun d => 48 + d) ds)
  = (fold_left (fun acc d => acc * 10 + d) ds a, (index + List.length ds)%nat).
Proof.
  induction ds as [|d ds IH]; intros a index Hds.
  - cbn. rewrite Nat.add_0_r. reflexivity.
  - inversion Hds as [|? ? Hd Hrest]; subst.
    cbn [map]. rewrite radix_10_loop_cons, ascii_to_digit_digit by assumption.
    cbv beta iota. rewrite IH by assumption. cbn [fold_left List.length].
    f_equal. lia.
Qed.

Lemma snd_radix_10_loop norm norm' neg a a' index text :
  snd (radix_10_loop norm neg a index text)
  = snd (radix_10_loop norm' neg a' index text).
Proof.
  revert a a' index; induction text as [|c rest IH]; intros a a' index;
    cbn; [reflexivity|].
  destruct (ascii_to_digit c); [apply IH|reflexivity].
Qed.

Lemma fold_digits_bound ds : forall a,
  Forall is_digit ds -> 0 <= a ->
  0 <= fold_left (fun acc d => acc * 10 + d) ds a
    < (a + 1) * 10 ^ Z.of_nat (List.length ds).
Proof.
  induction ds as [|d ds IH]; intros a H Ha; cbn [fold_left List.length].
  - cbn. lia.
  - inversion H as [|? ? Hd Hr]; subst. unfold is_digit in Hd.
    specialize (IH (a * 10 + d) Hr ltac:(lia)).
    rewrite Nat2Z.inj_succ, Z.pow_succ_r by lia.
    pose proof (Z.pow_pos_nonneg 10 (Z.of_nat (List.length ds)) ltac:(lia) ltac:(lia)).
    nia.
Qed.

Lemma digits_value_bound ds :
  Forall is_digit ds ->
  0 <= digits_value ds < 10 ^ Z.of_nat (List.length ds).
Proof.
  intros H. pose proof (fold_digits_bound ds 0 H ltac:(lia)).
  unfold digits_value. lia.
Qed.

(** [from_radix_10] over [u32] on at most 9 digits: no wrap-around. *)
Lemma from_radix_10_digits ds :
  Forall is_digit ds -> (List.length ds <= 9)%nat ->
  from_radix_10 wrap_u32 (map (fun d => 48 + d) ds)
  = (digits_value ds, List.length ds).
Proof.
  intros Hds Hlen.
  pose proof (radix_10_loop_digits ds 0 0 Hds) as E.
  destruct (from_radix_10 wrap_u32 (map (fun d => 48 + d) ds)) as [v p] eqn:R.
  pose proof (radix_10_loop_mod (2 ^ 32) ltac:(lia)
                (map (fun d => 48 + d) ds) false 0 0 0%nat
                ltac:(rewrite Z.mod_0_l by lia; reflexivity)) as F.
  pose proof (snd_radix_10_loop wrap_u32 (fun x => x) false 0 0 0%nat
                (map (fun d => 48 + d) ds)) as G.
  unfold from_radix_10, wrap_u32 in R, G. rewrite R in F, G.
  rewrite E in F, G. cbn in F, G. subst v p.
  fold (digits_value ds).
  pose proof (digits_value_bound ds Hds).
  assert (10 ^ Z.of_nat (List.length ds) <= 10 ^ 9)
    by (apply Z.pow_le_mono_r; lia).
  rewrite Z.mod_small by lia. reflexivity.
Qed.

Lemma two_digits_digits v :
  0 <= v < 100 -> two_digits v = map (fun d => 48 + d) [v / 10; v mod 10].
Proof. reflexivity. Qed.

Lemma from_radix_10_two_digits v :
  0 <= v < 100 -> fst (from_radix_10 wrap_u32 (two_digits v)) = v.
Proof.
  intros Hv. rewrite two_digits_digits by assumption.
  rewrite from_radix_10_digits.
  - cbn. pose proof (Z.div_mod v 10). lia.
  - constructor; [|constructor; [|constructor]]; unfold is_digit.
    + split; [apply Z.div_pos; lia|].
      assert (v / 10 < 10) by (apply Z.div_lt_upper_bound; lia). lia.
    + pose proof (Z.mod_pos_bound v 10); lia.
  - cbn. lia.
Qed.

Lemma fraction_nanos_text (prefix : list Z) ds :
  List.length prefix = 8%nat -> Forall is_digit ds -> (List.length ds <= 9)%nat ->
  fraction_nanos
    (prefix ++ match ds with [] => [] | _ => 46 :: map (fun d => 48 + d) ds end)
  = Some (digits_value ds * 10 ^ (9 - Z.of_nat (List.length ds))).
Proof.
  intros Hp Hds Hlen. unfold fraction_nanos.
  destruct ds as [|d ds'] eqn:Eds.
  - rewrite app_nil_r, Hp. reflexivity.
  - rewrite <- Eds in *. set (k := List.length ds).
    rewrite length_app, Hp. cbn [List.length].
    destruct (Nat.ltb_spec 9 (8 + S (List.length (map (fun d0 => 48 + d0) ds))))
      as [_|Hc]; [|rewrite length_map in Hc; subst ds; cbn in Hc; lia].
    assert (Hs : skipn 9 (prefix ++ 46 :: map (fun d => 48 + d) ds)
                 = map (fun d => 48 + d) ds).
    { rewrite skipn_app, skipn_all2 by lia. rewrite Hp. reflexivity. }
    rewrite Hs.
    rewrite from_radix_10_digits by assumption. fold k.
    pose proof (digits_value_bound ds Hds) as Hb. fold k in Hb.
    assert (Hk : (9 - Z.of_nat k) + Z.of_nat k = 9) by lia.
    assert (Hpow : 10 ^ (9 - Z.of_nat k) * 10 ^ Z.of_nat k = 10 ^ 9)
      by (rewrite <- Z.pow_add_r by lia; f_equal; lia).
    assert (0 < 10 ^ (9 - Z.of_nat k)) by (apply Z.pow_pos_nonneg; lia).
    destruct (Nat.leb_spec k 8).
    + unfold u32_pow10, wrap_u32.
      rewrite Nat2Z.inj_sub by lia.
      assert (10 ^ (9 - Z.of_nat k) <= 10 ^ 9) by (apply Z.pow_le_mono_r; lia).
      change (2 ^ 32) with 4294967296. change (10 ^ 9) with 1000000000 in *.
      rewrite (Z.mod_small (10 ^ _)) by lia.
      rewrite Z.mod_small by nia. reflexivity.
    + replace k with 9%nat by lia. cbn [Nat.eqb].
      rewrite Z.mul_1_r. reflexivity.
Qed.

Lemma from_hms_nano_valid h m s nano :
  0 <= h < 24 -> 0 <= m < 60 -> 0 <= s < 60 -> 0 <= nano < 2000000000 ->
  from_hms_nano h m s nano = Some {| secs := h * 3600 + m * 60 + s; frac := nano |}.
Proof.
  intros. unfold from_hms_nano.
  destruct (Z.ltb_spec h 24), (Z.ltb_spec m 60), (Z.ltb_spec s 60),
    (Z.ltb_spec nano 2000000000); try lia. reflexivity.
Qed.

(** [parse_time] on a well-formed [HH:MM:SS[.fraction]] with at most nine
    fraction digits: the fraction is right-padded to nanoseconds. *)
Lemma parse_time_well_formed h m s ds :
  0 <= h < 24 -> 0 <= m < 60 -> 0 <= s < 60 ->
  Forall is_digit ds -> (List.length ds <= 9)%nat ->
  parse_time_bytes (time_text h m s ds) =
  Some {| secs := h * 3600 + m * 60 + s;
          frac := digits_value ds * 10 ^ (9 - Z.of_nat (List.length ds)) |}.
Proof.
  intros Hh Hm Hs Hds Hlen.
  pose proof (from_radix_10_two_digits h ltac:(lia)) as Vh.
  pose proof (from_radix_10_two_digits m ltac:(lia)) as Vm.
  pose proof (from_radix_10_two_digits s ltac:(lia)) as Vs.
  assert (Lh : List.length (two_digits h) = 2%nat) by reflexivity.
  assert (Lm : List.length (two_digits m) = 2%nat) by reflexivity.
  assert (Ls : List.length (two_digits s) = 2%nat) by reflexivity.
  pose proof (fraction_nanos_text
    (two_digits h ++ [58] ++ two_digits m ++ [58] ++ two_digits s) ds) as Fr.
  specialize (Fr ltac:(rewrite !length_app, Lh, Lm, Ls; reflexivity) Hds Hlen).
  rewrite <- !app_assoc in Fr.
  unfold time_text, parse_time_bytes. rewrite Fr.
  destruct (two_digits h) as [|h1 [|h2 [|]]]; try discriminate Lh.
  destruct (two_digits m) as [|m1 [|m2 [|]]]; try discriminate Lm.
  destruct (two_digits s) as [|s1 [|s2 [|]]]; try discriminate Ls.
  cbn [app slice skipn firstn List.length andb Nat.leb Nat.sub].
  rewrite Vh, Vm, Vs.
  pose proof (digits_value_bound ds Hds).
  assert (10 ^ Z.of_nat (List.length ds) * 10 ^ (9 - Z.of_nat (List.length ds))
          = 10 ^ 9) by (rewrite <- Z.pow_add_r by lia; f_equal; lia).
  assert (0 < 10 ^ (9 - Z.of_nat (List.length ds)))
    by (apply Z.pow_pos_nonneg; lia).
  apply from_hms_nano_valid; try lia. nia.
Qed.

(** C6 fails beyond nine fraction digits: [from_radix_10] reads the ten
    digits of [00:00:00.9999999999] into a [u32], which wraps to
    1410065407; cut to nine digits that is 141006540 ns, so the result is
    141006 us where dropping the tenth digit gives 999999 us. *)
Theorem time_ten_fraction_digits_wrap :
  time_to_micros "00:00:00.9999999999" = Some 141006 /\
  time_to_micros "00:00:00.999999999" = Some 999999.
Proof. split; vm_compute; reflexivity. Qed.

(** C7 fails: fields that are not digits are not rejected; they read as
    0, and the parse succeeds with midnight. *)
Lemma parse_time_accepts_non_digits :
  parse_time "ab:cd:ef" = Some {| secs := 0; frac := 0 |}.
Proof. vm_compute. reflexivity. Qed.

(** C7 (amended): [parse_time] has no error result. An input shorter than
    8 bytes panics on slicing; otherwise hour, minute and second are the
    values of the leading digits of the fields at offsets 0, 3 and 6 (0
    when a field starts with a non-digit), and the parse panics only when
    these are out of range ([from_hms_nano]) or the fraction block fails. *)
Theorem parse_time_outcomes input :
  ((List.length (to_bytes input) < 8)%nat -> parse_time input = None) /\
  ((8 <= List.length (to_bytes input))%nat ->
   parse_time input =
   match fraction_nanos (to_bytes input) with
   | Some nano =>
       from_hms_nano (time_field (to_bytes input) 0)
         (time_field (to_bytes input) 3) (time_field (to_bytes input) 6) nano
   | None => None
   end).
Proof.
  unfold parse_time, parse_time_bytes.
  set (bytes := to_bytes input).
  split; intros Hl.
  - unfold slice at 3.
    destruct (Nat.leb_spec 8 (List.length bytes)); [lia|].
    rewrite andb_false_r.
    destruct (slice bytes 0 2), (slice bytes 3 5); reflexivity.
  - unfold slice.
    destruct (Nat.leb_spec 2 (List.length bytes)); [|lia].
    destruct (Nat.leb_spec 5 (List.length bytes)); [|lia].
    destruct (Nat.leb_spec 8 (List.length bytes)); [|lia].
    reflexivity.
Qed.

(* ------------------------------------------------------------------ *)
(** ** Dates, timestamps, times, decimals and the insert loop *)

Lemma days_before_year_succ y :
  days_before_year (y + 1)
  = days_before_year y + 365 + (if is_leap_year y then 1 else 0).
Proof.
  unfold days_before_year, is_leap_year.
  replace (y + 1 - 1) with y by lia.
  destruct (Z.eqb_spec (y mod 4) 0), (Z.eqb_spec (y mod 100) 0),
    (Z.eqb_spec (y mod 400) 0); cbn [negb andb orb];
    Z.div_mod_to_equations; lia.
Qed.

Lemma days_before_month_table i :
  0 <= nth i [0; 31; 59; 90; 120; 151; 181; 212; 243; 273; 304; 334] 0 <= 334.
Proof.
  do 12 (destruct i as [|i]; [cbn; lia|]). destruct i; cbn; lia.
Qed.

Lemma days_before_month_bound y m : 0 <= days_before_month y m <= 335.
Proof.
  unfold days_before_month.
  pose proof (days_before_month_table (Z.to_nat (m - 1))).
  destruct (is_leap_year y && (2 <? m)); lia.
Qed.

Lemma days_in_month_bound y m : days_in_month y m <= 31.
Proof.
  unfold days_in_month.
  destruct (m =? 2), (is_leap_year y), ((m =? 4) || (m =? 6) || (m =? 9) || (m =? 11)),
    ((1 <=? m) && (m <=? 12)); lia.
Qed.

Lemma from_ymd_spec y m d :
  from_ymd y m d <> None <->
  -262144 <= y <= 262143 /\ 1 <= m <= 12 /\ 1 <= d <= days_in_month y m.
Proof.
  unfold from_ymd.
  destruct (Z.leb_spec (-262144) y), (Z.leb_spec y 262143), (Z.leb_spec 1 m),
    (Z.leb_spec m 12), (Z.leb_spec 1 d), (Z.leb_spec d (days_in_month y m));
    cbn [andb]; split; intros Hs; try discriminate; try lia; try (exfalso; lia);
    try congruence.
Qed.

Lemma num_days_epoch : num_days_from_ce unix_epoch = 719163.
Proof. reflexivity. Qed.

Lemma days_since_epoch_bound y m d :
  1678 <= y <= 2261 \/ -32768 <= y <= 32767 ->
  1 <= d <= 31 ->
  let n := days_since {| nd_year := y; nd_month := m; nd_day := d |} unix_epoch in
  (-32768 <= y <= 32767 -> - 2 ^ 31 <= n <= 2 ^ 31 - 1) /\
  (1678 <= y <= 2261 -> -106700 <= n <= 106700).
Proof.
  intros Hy Hd n. subst n. unfold days_since.
  rewrite num_days_epoch. unfold num_days_from_ce. cbn [nd_year nd_month nd_day].
  pose proof (days_before_month_bound y m). unfold days_before_year.
  split; intros; Z.div_mod_to_equations; lia.
Qed.

Lemma date_into_physical_eq d :
  -32768 <= year d <= 32767 ->
  date_into_physical d =
  match from_ymd (year d) (month d) (day d) with
  | Some date => Some (days_since date unix_epoch)
  | None => None
  end.
Proof.
  intros Hy. unfold date_into_physical.
  destruct (from_ymd (year d) (month d) (day d)) as [date|] eqn:E; [|reflexivity].
  assert (Hv : from_ymd (year d) (month d) (day d) <> None) by congruence.
  apply from_ymd_spec in Hv.
  unfold from_ymd in E. destruct (_ && _); [|discriminate]. injection E as <-.
  pose proof (days_in_month_bound (year d) (month d)).
  destruct (days_since_epoch_bound (year d) (month d) (day d) ltac:(lia) ltac:(lia))
    as [Hb _].
  specialize (Hb Hy).
  destruct (Z.leb_spec (- 2 ^ 31) (days_since {| nd_year := year d; nd_month := month d;
    nd_day := day d |} unix_epoch)); [|lia].
  destruct (Z.leb_spec (days_since {| nd_year := year d; nd_month := month d;
    nd_day := day d |} unix_epoch) (2 ^ 31 - 1)); [|lia].
  reflexivity.
Qed.

Lemma days_before_month_succ y m :
  1 <= m <= 11 ->
  days_before_month y (m + 1) = days_before_month y m + days_in_month y m.
Proof.
  intros Hm.
  assert (m = 1 \/ m = 2 \/ m = 3 \/ m = 4 \/ m = 5 \/ m = 6 \/ m = 7 \/ m = 8 \/
          m = 9 \/ m = 10 \/ m = 11) as Hc by lia.
  unfold days_before_month, days_in_month.
  repeat destruct Hc as [->|Hc]; subst; cbn - [is_leap_year];
    destruct (is_leap_year y); reflexivity.
Qed.

Lemma days_before_month_dec y :
  days_before_month y 12 + days_in_month y 12 = 365 + (if is_leap_year y then 1 else 0).
Proof. unfold days_before_month, days_in_month. cbn - [is_leap_year].
  destruct (is_leap_year y); reflexivity. Qed.

Lemma days_before_month_jan y : days_before_month y 1 = 0.
Proof. unfold days_before_month. cbn - [is_leap_year]. destruct (is_leap_year y); reflexivity. Qed.

Lemma next_day_valid d :
  1 <= month d <= 12 -> 1 <= day d <= days_in_month (year d) (month d) ->
  1 <= month (next_day d) <= 12 /\
  1 <= day (next_day d) <= days_in_month (year (next_day d)) (month (next_day d)) /\
  num_days_from_ce {| nd_year := year (next_day d); nd_month := month (next_day d);
                      nd_day := day (next_day d) |}
  = num_days_from_ce {| nd_year := year d; nd_month := month d; nd_day := day d |} + 1.
Proof.
  intros Hm Hd. unfold next_day.
  destruct (Z.ltb_spec (day d) (days_in_month (year d) (month d))).
  - cbn. unfold num_days_from_ce; cbn. lia.
  - destruct (Z.ltb_spec (month d) 12).
    + cbn. assert (Hdim : forall y m, 1 <= m <= 12 -> 28 <= days_in_month y m).
      { intros y m Hm'. unfold days_in_month.
        destruct (m =? 2), (is_leap_year y),
          ((m =? 4) || (m =? 6) || (m =? 9) || (m =? 11)),
          (Z.leb_spec 1 m), (Z.leb_spec m 12); cbn; lia. }
      pose proof (Hdim (year d) (month d + 1) ltac:(lia)).
      repeat split; try lia.
      unfold num_days_from_ce; cbn.
      rewrite days_before_month_succ by lia. lia.
    + cbn [year month day]. assert (month d = 12) by lia.
      assert (days_in_month (year d + 1) 1 = 31) by reflexivity.
      repeat split; try lia.
      unfold num_days_from_ce; cbn [nd_year nd_month nd_day].
      rewrite days_before_year_succ, days_before_month_jan.
      rewrite H1 in Hd, H |- *. pose proof (days_before_month_dec (year d)).
      assert (days_in_month (year d) 12 = 31) by reflexivity. lia.
Qed.

(** For a [Date] whose year is an [i16], [IntoPhysical<i32>] panics exactly
    when the date does not exist; the [i32] conversion of the day count never
    panics. *)
Theorem date_into_physical_panics_iff_invalid d :
  -32768 <= year d <= 32767 ->
  date_into_physical d = None <->
  ~ (1 <= month d <= 12 /\ 1 <= day d <= days_in_month (year d) (month d)).
Proof.
  intros Hy. rewrite date_into_physical_eq by exact Hy.
  pose proof (from_ymd_spec (year d) (month d) (day d)) as Hs.
  destruct (from_ymd (year d) (month d) (day d)); split; intros H.
  - discriminate.
  - exfalso. apply H. apply proj1 in Hs. specialize (Hs ltac:(discriminate)). tauto.
  - intros Hv. apply Hs; [lia|]. reflexivity.
  - reflexivity.
Qed.

Lemma date_into_physical_panics_iff_invalid_witness :
  -32768 <= 2019 <= 32767 /\
  date_into_physical {| year := 2019; month := 2; day := 29 |} = None.
Proof.
  split; [lia|].
  apply (date_into_physical_panics_iff_invalid {| year := 2019; month := 2; day := 29 |}
           ltac:(cbn; lia)).
  cbn. unfold days_in_month. cbn. lia.
Defined.

(** Consecutive calendar days are converted to consecutive day numbers,
    across month and year ends and leap days. *)
Theorem date_into_physical_next_day d n :
  -32768 <= year d -> year (next_day d) <= 32767 ->
  date_into_physical d = Some n ->
  date_into_physical (next_day d) = Some (n + 1).
Proof.
  intros Hlo Hhi H.
  assert (Hy : year d <= year (next_day d)).
  { unfold next_day. destruct (_ <? _); [cbn; lia|]. destruct (_ <? _); cbn; lia. }
  rewrite date_into_physical_eq in H |- * by lia.
  destruct (from_ymd (year d) (month d) (day d)) as [date|] eqn:E; [|discriminate].
  assert (Hv : from_ymd (year d) (month d) (day d) <> None) by congruence.
  apply from_ymd_spec in Hv. destruct Hv as (_ & Hm & Hd).
  destruct (next_day_valid d Hm Hd) as (Hm' & Hd' & Hn).
  unfold from_ymd in E |- *.
  destruct (Z.leb_spec (-262144) (year d)), (Z.leb_spec (year d) 262143); try lia.
  destruct (Z.leb_spec (-262144) (year (next_day d))),
    (Z.leb_spec (year (next_day d)) 262143); try lia.
  destruct (Z.leb_spec 1 (month d)), (Z.leb_spec (month d) 12),
    (Z.leb_spec 1 (day d)), (Z.leb_spec (day d) (days_in_month (year d) (month d)));
    try lia.
  destruct (Z.leb_spec 1 (month (next_day d))), (Z.leb_spec (month (next_day d)) 12),
    (Z.leb_spec 1 (day (next_day d))),
    (Z.leb_spec (day (next_day d)) (days_in_month (year (next_day d)) (month (next_day d))));
    try lia.
  cbn [andb] in E |- *. injection E as <-. injection H as <-.
  f_equal. unfold days_since. rewrite Hn. ring.
Qed.

Lemma date_into_physical_next_day_witness :
  (-32768 <= 2020 /\ year (next_day {| year := 2020; month := 12; day := 31 |}) <= 32767 /\
   date_into_physical {| year := 2020; month := 12; day := 31 |} = Some 18627) /\
  date_into_physical (next_day {| year := 2020; month := 12; day := 31 |}) = Some 18628.
Proof.
  assert (H : date_into_physical {| year := 2020; month := 12; day := 31 |} = Some 18627)
    by (vm_compute; reflexivity).
  split; [split; [lia|split; [vm_compute; discriminate|exact H]]|].
  apply (date_into_physical_next_day {| year := 2020; month := 12; day := 31 |} 18627);
    [cbn; lia|vm_compute; discriminate|exact H].
Defined.

Lemma wrap_i64_small x : - 2 ^ 63 <= x < 2 ^ 63 -> wrap_i64 x = x.
Proof. intros H. unfold wrap_i64. rewrite Z.mod_small by lia. lia. Qed.

(** A valid [Timestamp] between the years 1678 and 2261 is converted to its
    nanoseconds since the epoch divided by 1000 rounding toward zero: before
    the epoch, a time that is not a whole microsecond is rounded up, not
    down. *)
Theorem timestamp_into_physical_micros ts date :
  1678 <= ts_year ts <= 2261 ->
  from_ymd (ts_year ts) (ts_month ts) (ts_day ts) = Some date ->
  0 <= hour ts < 24 -> 0 <= minute ts < 60 -> 0 <= second ts < 60 ->
  0 <= fraction ts < 2000000000 ->
  let nanos := (days_since date unix_epoch * 86400 + hour ts * 3600 + minute ts * 60
                + second ts) * 1000000000 + fraction ts in
  timestamp_into_physical ts = Some (Z.quot nanos 1000) /\
  (nanos < 0 -> nanos mod 1000 <> 0 -> Z.quot nanos 1000 = nanos / 1000 + 1).
Proof.
  intros Hy Hd Hh Hm Hs Hf nanos.
  assert (Hb : -106700 <= days_since date unix_epoch <= 106700).
  { unfold from_ymd in Hd. destruct (_ && _) eqn:E; [|discriminate].
    injection Hd as <-.
    repeat rewrite andb_true_iff in E. rewrite !Z.leb_le in E.
    pose proof (days_in_month_bound (ts_year ts) (ts_month ts)).
    destruct (days_since_epoch_bound (ts_year ts) (ts_month ts) (ts_day ts)
                ltac:(lia) ltac:(lia)) as [_ Hb].
    exact (Hb Hy). }
  split.
  - unfold timestamp_into_physical. rewrite Hd. unfold and_hms_nano.
    rewrite from_hms_nano_valid by lia.
    f_equal. f_equal. unfold timestamp_nanos, timestamp; cbn [ndt_date ndt_time secs frac].
    rewrite (wrap_i64_small (_ * 1000000000)) by lia.
    rewrite wrap_i64_small by lia. subst nanos. ring.
  - intros Hn Hmod. clearbody nanos.
    Z.to_euclidean_division_equations; lia.
Qed.

Lemma timestamp_into_physical_micros_witness :
  let ts := {| ts_year := 1969; ts_month := 12; ts_day := 31; hour := 23;
               minute := 59; second := 59; fraction := 999999500 |} in
  (1678 <= ts_year ts <= 2261 /\
   from_ymd (ts_year ts) (ts_month ts) (ts_day ts)
     = Some {| nd_year := 1969; nd_month := 12; nd_day := 31 |} /\
   0 <= hour ts < 24 /\ 0 <= minute ts < 60 /\ 0 <= second ts < 60 /\
   0 <= fraction ts < 2000000000) /\
  timestamp_into_physical ts = Some 0 /\ -500 / 1000 = -1.
Proof.
  intros ts.
  assert (Hd : from_ymd (ts_year ts) (ts_month ts) (ts_day ts)
               = Some {| nd_year := 1969; nd_month := 12; nd_day := 31 |})
    by reflexivity.
  split; [cbn; repeat split; lia || exact Hd|].
  destruct (timestamp_into_physical_micros ts _ ltac:(cbn; lia) Hd
              ltac:(cbn; lia) ltac:(cbn; lia) ltac:(cbn; lia) ltac:(cbn; lia))
    as [H _].
  split; [rewrite H; vm_compute; reflexivity|reflexivity].
Defined.

Lemma slice_time_text h m s ds :
  slice (time_text h m s ds) 0 2 = Some (two_digits h) /\
  slice (time_text h m s ds) 3 5 = Some (two_digits m) /\
  slice (time_text h m s ds) 6 8 = Some (two_digits s).
Proof.
  unfold time_text. unfold two_digits at 1 2 3 4 5 6.
  unfold slice; cbn. repeat split.
Qed.

Lemma parse_time_text h m s ds :
  0 <= h < 24 -> 0 <= m < 60 -> 0 <= s < 60 ->
  parse_time_bytes (time_text h m s ds) =
  match fraction_nanos (time_text h m s ds) with
  | Some nano => from_hms_nano h m s nano
  | None => None
  end.
Proof.
  intros Hh Hm Hs. unfold parse_time_bytes.
  destruct (slice_time_text h m s ds) as (-> & -> & ->).
  rewrite !from_radix_10_two_digits by lia. reflexivity.
Qed.

(** On a well-formed [HH:MM:SS[.fraction]] with at most nine fraction
    digits, the [i32] and [i64] time conversions give the milliseconds and
    microseconds since midnight, the fraction padded to nanoseconds and
    truncated. *)
Theorem time_conversions_well_formed input h m s ds :
  to_bytes input = time_text h m s ds ->
  0 <= h < 24 -> 0 <= m < 60 -> 0 <= s < 60 ->
  Forall is_digit ds -> (List.length ds <= 9)%nat ->
  let f := digits_value ds * 10 ^ (9 - Z.of_nat (List.length ds)) in
  time_to_millis input = Some ((h * 3600 + m * 60 + s) * 1000 + f / 1000000) /\
  time_to_micros input = Some ((h * 3600 + m * 60 + s) * 1000000 + f / 1000).
Proof.
  intros Hb Hh Hm Hs Hds Hlen f.
  assert (Hf : 0 <= f < 1000000000).
  { subst f. pose proof (digits_value_bound ds Hds).
    assert (10 ^ Z.of_nat (List.length ds) * 10 ^ (9 - Z.of_nat (List.length ds))
            = 10 ^ 9) by (rewrite <- Z.pow_add_r by lia; f_equal; lia).
    assert (0 < 10 ^ (9 - Z.of_nat (List.length ds)))
      by (apply Z.pow_pos_nonneg; lia).
    change (10 ^ 9) with 1000000000 in *. nia. }
  unfold time_to_millis, time_to_micros, parse_time.
  rewrite Hb, parse_time_well_formed by assumption. fold f.
  unfold nanos_since_midnight; cbn [secs frac].
  set (A := h * 3600 + m * 60 + s).
  assert (0 <= A < 86400) by (subst A; lia).
  replace (A * 1000000000 + f) with (f + (A * 1000) * 1000000) by ring.
  rewrite Z.div_add by lia.
  replace (f + A * 1000 * 1000000) with (f + (A * 1000000) * 1000) by ring.
  rewrite Z.div_add by lia.
  assert (0 <= f / 1000000 < 1000) by (split; [apply Z.div_pos|apply Z.div_lt_upper_bound]; lia).
  assert (0 <= f / 1000 < 1000000) by (split; [apply Z.div_pos|apply Z.div_lt_upper_bound]; lia).
  destruct (Z.leb_spec (f / 1000000 + A * 1000) (2 ^ 31 - 1)); [|lia].
  destruct (Z.leb_spec (f / 1000 + A * 1000000) (2 ^ 63 - 1)); [|lia].
  split; f_equal; ring.
Qed.

Lemma time_conversions_well_formed_witness :
  (to_bytes "12:17:51.123" = time_text 12 17 51 [1; 2; 3] /\
   0 <= 12 < 24 /\ 0 <= 17 < 60 /\ 0 <= 51 < 60 /\
   Forall is_digit [1; 2; 3] /\ (List.length [1; 2; 3] <= 9)%nat) /\
  time_to_millis "12:17:51.123" = Some ((12 * 3600 + 17 * 60 + 51) * 1000 + 123) /\
  time_to_micros "12:17:51.123" = Some ((12 * 3600 + 17 * 60 + 51) * 1000000 + 123000).
Proof.
  assert (Hb : to_bytes "12:17:51.123" = time_text 12 17 51 [1; 2; 3])
    by (vm_compute; reflexivity).
  assert (Hd : Forall is_digit [1; 2; 3])
    by (repeat constructor; unfold is_digit; lia).
  split; [repeat split; (exact Hb || exact Hd || lia || cbn; lia)|].
  exact (time_conversions_well_formed "12:17:51.123" 12 17 51 [1; 2; 3] Hb
           ltac:(lia) ltac:(lia) ltac:(lia) Hd ltac:(cbn; lia)).
Defined.

Lemma from_radix_10_digits_wrap ds :
  Forall is_digit ds ->
  from_radix_10 wrap_u32 (map (fun d => 48 + d) ds)
  = (digits_value ds mod 2 ^ 32, List.length ds).
Proof.
  intros Hds.
  pose proof (radix_10_loop_digits ds 0 0 Hds) as E.
  pose proof (radix_10_loop_mod (2 ^ 32) ltac:(lia)
                (map (fun d => 48 + d) ds) false 0 0 0%nat
                ltac:(rewrite Z.mod_0_l by lia; reflexivity)) as F.
  pose proof (snd_radix_10_loop wrap_u32 (fun x => x) false 0 0 0%nat
                (map (fun d => 48 + d) ds)) as G.
  unfold from_radix_10, wrap_u32 in *.
  destruct (radix_10_loop (fun x => x mod 2 ^ 32) false 0 0 (map (fun d => 48 + d) ds))
    as [v p].
  rewrite E in F, G. cbn in F, G. subst. reflexivity.
Qed.

Lemma u32_pow10_zero e : (32 <= e)%nat -> u32_pow10 e = 0.
Proof.
  intros He. unfold u32_pow10, wrap_u32.
  replace (10 ^ Z.of_nat e) with ((2 ^ (Z.of_nat e - 32) * 5 ^ Z.of_nat e) * 2 ^ 32).
  - apply Z.mod_mul. lia.
  - change 10 with (2 * 5). rewrite Z.pow_mul_l.
    replace (2 ^ (Z.of_nat e - 32) * 5 ^ Z.of_nat e * 2 ^ 32)
      with (2 ^ (Z.of_nat e - 32 + 32) * 5 ^ Z.of_nat e)
      by (rewrite Z.pow_add_r by lia; ring).
    f_equal. f_equal. lia.
Qed.

Lemma u32_pow10_small e : (1 <= e <= 31)%nat -> 4 <= u32_pow10 e < 2 ^ 32.
Proof.
  intros He.
  assert (Hc : forallb (fun e => (4 <=? u32_pow10 e) && (u32_pow10 e <? 2 ^ 32))
                 (seq 1 31) = true) by (vm_compute; reflexivity).
  rewrite forallb_forall in Hc.
  specialize (Hc e ltac:(apply in_seq; lia)).
  apply andb_true_iff in Hc as [H1 H2]. apply Z.leb_le in H1. apply Z.ltb_lt in H2.
  lia.
Qed.

Lemma skipn_time_text h m s ds :
  ds <> [] -> skipn 9 (time_text h m s ds) = map (fun d => 48 + d) ds.
Proof.
  intros Hne. unfold time_text. destruct ds as [|d ds]; [congruence|].
  reflexivity.
Qed.

Lemma length_time_text h m s ds :
  List.length (time_text h m s ds)
  = (8 + match ds with [] => 0 | _ => S (List.length ds) end)%nat.
Proof.
  unfold time_text. destruct ds as [|d ds]; cbn; [reflexivity|].
  rewrite length_map. reflexivity.
Qed.

(** With ten or more fraction digits, [parse_time] panics exactly when there
    are 41 or more: [10_u32.pow(precision - 9)] wraps to 0 and the division
    by it panics. *)
Theorem parse_time_long_fraction h m s ds :
  0 <= h < 24 -> 0 <= m < 60 -> 0 <= s < 60 ->
  Forall is_digit ds -> (10 <= List.length ds)%nat ->
  parse_time_bytes (time_text h m s ds) = None <-> (41 <= List.length ds)%nat.
Proof.
  intros Hh Hm Hs Hds Hlen.
  assert (Hne : ds <> []) by (intros ->; cbn in Hlen; lia).
  rewrite parse_time_text by assumption.
  unfold fraction_nanos.
  rewrite length_time_text, skipn_time_text, from_radix_10_digits_wrap by assumption.
  destruct ds as [|d ds']; [congruence|]. set (ds := d :: ds') in *.
  destruct (Nat.ltb_spec 9 (8 + S (List.length ds))); [|lia].
  destruct (Nat.leb_spec (List.length ds) 8); [lia|].
  destruct (Nat.eqb_spec (List.length ds) 9); [lia|].
  destruct (Nat.leb_spec 41 (List.length ds)).
  - rewrite u32_pow10_zero by lia. cbn. tauto.
  - pose proof (u32_pow10_small (List.length ds - 9) ltac:(lia)) as Hp.
    destruct (Z.eqb_spec (u32_pow10 (List.length ds - 9)) 0); [lia|].
    pose proof (Z.mod_pos_bound (digits_value ds) (2 ^ 32) ltac:(lia)).
    assert (0 <= digits_value ds mod 2 ^ 32 / u32_pow10 (List.length ds - 9) < 2000000000).
    { split; [apply Z.div_pos; lia|].
      apply Z.div_lt_upper_bound; lia. }
    rewrite from_hms_nano_valid by lia. split; [discriminate|lia].
Qed.

Lemma parse_time_long_fraction_witness :
  (0 <= 0 < 24 /\ 0 <= 0 < 60 /\ 0 <= 0 < 60 /\
   Forall is_digit (repeat 1 41) /\ (10 <= List.length (repeat 1 41))%nat) /\
  parse_time_bytes (time_text 0 0 0 (repeat 1 41)) = None.
Proof.
  assert (Hd : Forall is_digit (repeat 1 41))
    by (apply Forall_forall; intros x Hx; apply repeat_spec in Hx; subst;
        unfold is_digit; lia).
  split; [repeat split; (exact Hd || lia || cbn; lia)|].
  apply (parse_time_long_fraction 0 0 0 (repeat 1 41) ltac:(lia) ltac:(lia) ltac:(lia)
           Hd ltac:(cbn; lia)).
  cbn. lia.
Defined.

(** [parse_time] never looks at bytes 2, 5 and 8: any separators are
    accepted ([12-30-45] reads as [12:30:45]), and byte 8, when there is
    one, need not be a point ([12:00:00+05] reads as [12:00:00.05]). *)
Theorem parse_time_ignores_separators a b c x y x' y' tail tail' :
  List.length a = 2%nat -> List.length b = 2%nat -> List.length c = 2%nat ->
  List.length tail = List.length tail' -> skipn 1 tail = skipn 1 tail' ->
  parse_time_bytes (a ++ x :: b ++ y :: c ++ tail)
  = parse_time_bytes (a ++ x' :: b ++ y' :: c ++ tail').
Proof.
  intros Ha Hb Hc Hl Hr.
  destruct a as [|a1 [|a2 [|]]]; try discriminate Ha.
  destruct b as [|b1 [|b2 [|]]]; try discriminate Hb.
  destruct c as [|c1 [|c2 [|]]]; try discriminate Hc.
  destruct tail as [|z rest], tail' as [|z' rest']; try discriminate Hl.
  - reflexivity.
  - cbn in Hr. subst rest'. reflexivity.
Qed.

Lemma parse_time_ignores_separators_witness :
  parse_time "12-30-45" = parse_time "12:30:45" /\
  parse_time "12:30:45" = Some {| secs := 45045; frac := 0 |} /\
  parse_time "12:00:00+05" = parse_time "12:00:00.05" /\
  parse_time "12:00:00.05" = Some {| secs := 43200; frac := 50000000 |}.
Proof.
  split; [|split; [vm_compute; reflexivity|split; [|vm_compute; reflexivity]]];
    unfold parse_time.
  - change (to_bytes "12-30-45")
      with ([49; 50] ++ 45 :: [51; 48] ++ 45 :: [52; 53] ++ []).
    change (to_bytes "12:30:45")
      with ([49; 50] ++ 58 :: [51; 48] ++ 58 :: [52; 53] ++ []).
    apply parse_time_ignores_separators; reflexivity.
  - change (to_bytes "12:00:00+05")
      with ([49; 50] ++ 58 :: [48; 48] ++ 58 :: [48; 48] ++ [43; 48; 53]).
    change (to_bytes "12:00:00.05")
      with ([49; 50] ++ 58 :: [48; 48] ++ 58 :: [48; 48] ++ [46; 48; 53]).
    apply parse_time_ignores_separators; reflexivity.
Defined.

Lemma radix_10_loop_digits_neg ds : forall a index,
  Forall is_digit ds ->
  fst (radix_10_loop (fun x => x) true (- a) index (map (fun d => 48 + d) ds))
  = - fold_left (fun acc d => acc * 10 + d) ds a.
Proof.
  induction ds as [|d ds IH]; intros a index Hds; [reflexivity|].
  inversion Hds as [|? ? Hd Hrest]; subst.
  cbn [map]. rewrite radix_10_loop_cons, ascii_to_digit_digit by assumption.
  cbv beta iota. replace (- a * 10 - d) with (- (a * 10 + d)) by ring.
  rewrite IH by assumption. reflexivity.
Qed.

Lemma strip_points_digits ds :
  Forall is_digit ds -> strip_points (map (fun d => 48 + d) ds) = map (fun d => 48 + d) ds.
Proof.
  induction 1 as [|d ds Hd _ IH]; [reflexivity|].
  cbn [map]. unfold strip_points in *. cbn [filter].
  unfold is_digit in Hd. destruct (Z.eqb_spec (48 + d) 46); [lia|].
  cbn [negb]. rewrite IH. reflexivity.
Qed.

Lemma strip_points_decimal_text neg ip fp :
  Forall is_digit (ip ++ fp) ->
  strip_points (decimal_text neg ip fp)
  = (if neg then [45] else []) ++ map (fun d => 48 + d) (ip ++ fp).
Proof.
  intros H. pose proof H as H'. apply Forall_app in H' as [Hi Hf].
  unfold decimal_text, strip_points. rewrite !filter_app.
  fold (strip_points (map (fun d => 48 + d) ip)).
  rewrite strip_points_digits by assumption. rewrite map_app. f_equal.
  { destruct neg; reflexivity. }
  f_equal. destruct fp as [|d fp]; [reflexivity|].
  cbn [filter]. change (negb (46 =? 46)) with false. cbv iota.
  fold (strip_points (map (fun d => 48 + d) (d :: fp))).
  apply strip_points_digits. assumption.
Qed.

(** The unscaled value of a decimal text: its digits without the point. *)
Lemma decimal_value_text s neg ip fp :
  to_bytes s = decimal_text neg ip fp -> Forall is_digit (ip ++ fp) ->
  decimal_value s
  = if neg then - digits_value (ip ++ fp) else digits_value (ip ++ fp).
Proof.
  intros Hs H. unfold decimal_value. rewrite Hs, strip_points_decimal_text by assumption.
  unfold digits_value. destruct neg.
  - cbn [app from_radix_10_signed]. change (45 =? 43) with false.
    change (45 =? 45) with true. cbv iota.
    rewrite <- (radix_10_loop_digits_neg (ip ++ fp) 0 1 H). reflexivity.
  - cbn [app]. remember (ip ++ fp) as l eqn:E. clear E.
    destruct l as [|d ds]; [reflexivity|].
    inversion H as [|? ? Hd _]; subst. unfold is_digit in Hd.
    unfold from_radix_10_signed. cbn [map].
    destruct (Z.eqb_spec (48 + d) 43); [lia|].
    destruct (Z.eqb_spec (48 + d) 45); [lia|].
    change (48 + d :: map (fun d => 48 + d) ds) with (map (fun d => 48 + d) (d :: ds)).
    rewrite radix_10_loop_digits by assumption. reflexivity.
Qed.

(** [to_signed_bytes_be] is the shortest form: any length of at least one
    byte that holds the value is at least as long. *)
Lemma signed_bytes_len_min L n :
  (1 <= L)%nat -> fits_signed L n -> (signed_bytes_len n <= L)%nat.
Proof.
  intros HL [Hlo Hhi]. unfold signed_bytes_len.
  set (m := if 0 <=? n then n else - n - 1).
  assert (Hm0 : 0 <= m) by (subst m; destruct (Z.leb_spec 0 n); lia).
  assert (Hpow : 256 ^ Z.of_nat L = 2 * 2 ^ (8 * Z.of_nat L - 1)).
  { change 256 with (2 ^ 8). rewrite <- Z.pow_mul_r by lia.
    rewrite <- Z.pow_succ_r by lia. f_equal. lia. }
  assert (Hm : m < 2 ^ (8 * Z.of_nat L - 1))
    by (subst m; destruct (Z.leb_spec 0 n); lia).
  assert (Hl : Z.log2 m < 8 * Z.of_nat L - 1 \/ m = 0).
  { destruct (Z.eq_dec m 0) as [|Hne]; [right; assumption|left].
    apply Z.log2_lt_pow2; lia. }
  assert (Hl0 : 0 <= Z.log2 m) by apply Z.log2_nonneg.
  destruct Hl as [Hl|Hl].
  - assert ((Z.log2 m + 1) / 8 + 1 <= Z.of_nat L)
      by (Z.div_mod_to_equations; lia). lia.
  - rewrite Hl. cbn. lia.
Qed.

Lemma fits_signed_signed_be_value k x :
  fits_signed k (signed_be_value (be_bytes k x)).
Proof.
  unfold fits_signed, signed_be_value.
  rewrite be_value_be_bytes, length_be_bytes.
  pose proof (pow256_pos k).
  pose proof (Z.mod_pos_bound x (256 ^ Z.of_nat k) ltac:(lia)).
  destruct (Z.ltb_spec (2 * (x mod 256 ^ Z.of_nat k)) (256 ^ Z.of_nat k)); lia.
Qed.

(** On a decimal text [[-]digits[.digits]] whose unscaled value (the digits
    without the point) fits in [type_length] bytes, both paths of the decimal
    encoder write exactly [type_length] bytes that read back as that value. *)
Theorem decimal_encoder_unscaled s neg ip fp precision type_length :
  to_bytes s = decimal_text neg ip fp -> Forall is_digit (ip ++ fp) ->
  0 <= precision -> 1 <= type_length -> (precision < 39 -> type_length <= 16) ->
  let v := if neg then - digits_value (ip ++ fp) else digits_value (ip ++ fp) in
  fits_signed (Z.to_nat type_length) v ->
  exists b, decimal_encoder precision type_length s = Some b /\
            List.length b = Z.to_nat type_length /\ signed_be_value b = v.
Proof.
  intros Hs Hd Hp HL H16 v Hfit.
  assert (Hv : decimal_value s = v) by (apply decimal_value_text with (1 := Hs); exact Hd).
  exists (be_bytes (Z.to_nat type_length) v).
  split; [|split; [apply length_be_bytes|apply signed_be_value_be_bytes; exact Hfit]].
  unfold decimal_encoder.
  destruct (Z.ltb_spec precision 0); [lia|].
  destruct (Z.ltb_spec type_length 0); [lia|]. cbn [orb].
  destruct (Z.ltb_spec precision 39).
  - rewrite twos_complement_i128_eq, Hv.
    destruct (Nat.leb_spec (Z.to_nat type_length) 16); [reflexivity|lia].
  - rewrite twos_complement_big_int_eq, Hv.
    rewrite (proj2 (Nat.leb_le _ _)); [reflexivity|].
    apply signed_bytes_len_min; [lia|exact Hfit].
Qed.

Lemma decimal_encoder_unscaled_witness :
  (to_bytes "-123.45" = decimal_text true [1; 2; 3] [4; 5] /\
   Forall is_digit ([1; 2; 3] ++ [4; 5]) /\
   0 <= 40 /\ 1 <= 3 /\ (40 < 39 -> 3 <= 16) /\
   fits_signed (Z.to_nat 3) (- digits_value ([1; 2; 3] ++ [4; 5]))) /\
  decimal_encoder 40 3 "-123.45" = Some [255; 207; 199] /\
  signed_be_value [255; 207; 199] = -12345.
Proof.
  assert (Hs : to_bytes "-123.45" = decimal_text true [1; 2; 3] [4; 5])
    by (vm_compute; reflexivity).
  assert (Hd : Forall is_digit ([1; 2; 3] ++ [4; 5]))
    by (repeat constructor; unfold is_digit; lia).
  assert (Hf : fits_signed (Z.to_nat 3) (- digits_value ([1; 2; 3] ++ [4; 5])))
    by (unfold fits_signed; split; vm_compute; congruence).
  split; [split; [exact Hs|split; [exact Hd|split; [lia|split; [lia|split; [lia|exact Hf]]]]]|].
  destruct (decimal_encoder_unscaled "-123.45" true [1; 2; 3] [4; 5] 40 3 Hs Hd
              ltac:(lia) ltac:(lia) ltac:(lia) Hf) as (b & Hb & _ & Hv).
  assert (Hc : decimal_encoder 40 3 "-123.45" = Some [255; 207; 199])
    by (vm_compute; reflexivity).
  rewrite Hc in Hb. injection Hb as <-. split; [exact Hc|exact Hv].
Defined.

(** For precision 39 and above, the encoder panics exactly when the parsed
    value does not fit in [type_length] bytes. *)
Theorem big_int_path_panics_iff_too_wide precision type_length s :
  39 <= precision -> 1 <= type_length ->
  decimal_encoder precision type_length s = None <->
  ~ fits_signed (Z.to_nat type_length) (decimal_value s).
Proof.
  intros Hp HL. unfold decimal_encoder.
  destruct (Z.ltb_spec precision 0); [lia|].
  destruct (Z.ltb_spec type_length 0); [lia|].
  destruct (Z.ltb_spec precision 39); [lia|]. cbn [orb].
  rewrite twos_complement_big_int_eq.
  pose proof (signed_bytes_len_fits (decimal_value s)) as [_ Hfit].
  destruct (Nat.leb_spec (signed_bytes_len (decimal_value s)) (Z.to_nat type_length))
    as [Hle|Hgt]; split; intros Hn.
  - discriminate.
  - exfalso. apply Hn. eapply fits_signed_mono; eassumption.
  - intros Hf. pose proof (signed_bytes_len_min (Z.to_nat type_length) (decimal_value s) ltac:(lia) Hf). lia.
  - reflexivity.
Qed.

Lemma big_int_path_panics_iff_too_wide_witness :
  (39 <= 40 /\ 1 <= 1) /\ decimal_encoder 40 1 "300" = None.
Proof.
  split; [lia|].
  apply (proj2 (big_int_path_panics_iff_too_wide 40 1 "300" ltac:(lia) ltac:(lia))).
  unfold fits_signed. vm_compute. intros [_ H]. discriminate H.
Defined.

(** For precision below 39 and [type_length <= 16], the encoder never panics:
    it writes the value modulo [256^type_length], which reads back as the
    value only when it fits; a wider value is silently truncated. *)
Theorem fast_path_wraps precision type_length s :
  0 <= precision < 39 -> 0 <= type_length <= 16 ->
  exists b, decimal_encoder precision type_length s = Some b /\
    be_value b = decimal_value s mod 256 ^ type_length /\
    (signed_be_value b = decimal_value s <->
     fits_signed (Z.to_nat type_length) (decimal_value s)).
Proof.
  intros Hp HL. unfold decimal_encoder.
  destruct (Z.ltb_spec precision 0); [lia|].
  destruct (Z.ltb_spec type_length 0); [lia|].
  destruct (Z.ltb_spec precision 39); [|lia]. cbn [orb].
  rewrite twos_complement_i128_eq.
  destruct (Nat.leb_spec (Z.to_nat type_length) 16); [|lia].
  eexists; split; [reflexivity|split].
  - rewrite be_value_be_bytes, Z2Nat.id by lia. reflexivity.
  - split; intros Hs.
    + rewrite <- Hs. apply fits_signed_signed_be_value.
    + apply signed_be_value_be_bytes. exact Hs.
Qed.

Lemma fast_path_wraps_witness :
  (0 <= 10 < 39 /\ 0 <= 1 <= 16) /\
  decimal_encoder 10 1 "300" = Some [44] /\ signed_be_value [44] <> decimal_value "300".
Proof.
  split; [lia|].
  destruct (fast_path_wraps 10 1 "300" ltac:(lia) ltac:(lia)) as (b & Hb & _ & Hiff).
  assert (Hc : decimal_encoder 10 1 "300" = Some [44]) by (vm_compute; reflexivity).
  rewrite Hc in Hb. injection Hb as <-.
  split; [exact Hc|].
  intros H. apply Hiff in H. unfold fits_signed in H. vm_compute in H.
  destruct H as [_ H]. discriminate H.
Defined.

(** When the source has fewer items than [num_rows], the definition levels
    after its items are left as [set_num_rows_fetched] left them: markers of
    the previous batch are written again. *)
Theorem write_optional_any_short_source {Src T} `{BufferedDataType T}
    (pb : ParquetBuffer) (num_rows : nat) (source : list (option Src))
    (into_physical : Src -> T) :
  (List.length source <= num_rows)%nat ->
  exists pb' values,
    write_optional_any (set_num_rows_fetched pb num_rows) source into_physical
    = Some (pb', (values, map marker source
                          ++ skipn (List.length source)
                               (vec_resize (def_levels pb) num_rows 0))).
Proof.
  intros Hs. unfold write_optional_any.
  pose proof (mut_buf_def_levels (set_num_rows_fetched pb num_rows)) as Hd.
  pose proof (mut_buf_resized pb num_rows) as Hv.
  destruct (mut_buf (set_num_rows_fetched pb num_rows)) as [values defs].
  cbn in Hd, Hv. subst defs.
  rewrite fill_column_spec.
  - rewrite length_vec_resize, (firstn_all2 source Hs).
    do 2 eexists. reflexivity.
  - rewrite length_vec_resize, Hv.
    pose proof (length_present_values (firstn num_rows source)).
    rewrite length_firstn in *. lia.
Qed.

Lemma write_optional_any_short_source_witness :
  (List.length [Some 5] <= 3)%nat /\
  exists pb' values,
    write_optional_any
      (set_num_rows_fetched
         {| values_i32 := [7; 8; 9]; values_i64 := []; values_f32 := [];
            values_f64 := []; values_bytes_array := []; values_bool := [];
            def_levels := [1; 1; 1] |} 3)
      [Some 5] (fun x : Z => x)
    = Some (pb', (values, [1; 1; 1])).
Proof.
  split; [cbn; lia|].
  exact (write_optional_any_short_source
           {| values_i32 := [7; 8; 9]; values_i64 := []; values_f32 := [];
              values_f64 := []; values_bytes_array := []; values_bool := [];
              def_levels := [1; 1; 1] |} 3 [Some 5] (fun x : Z => x)
           ltac:(cbn; lia)).
Defined.
